(** * duplicates: a shallow embedding of duplicates.go

    The program walks a directory tree ([visitFile]), then hashes every
    admitted file on a pool of goroutines ([worker], [computeHashes]) that
    share the [duplicates] index, and finally reports the groups ([main]).

    Sequential code is embedded as functions over the package-level
    variables ([Globals]); a nil dereference is the [Panic] result.  The
    goroutines of [computeHashes] are embedded as a transition function
    [exec] driven by a schedule: one [Action] is one scheduling decision,
    including which ready branch a [select] takes. *)

From Stdlib Require Import ZArith Lia Ascii String.
From stdpp Require Import gmap strings list fin_maps.

Local Open Scope string_scope.
Local Open Scope Z_scope.
Local Open Scope list_scope.

(** ** Values of the Go runtime *)

(** A Go [error] is kept as its message; [None] is the nil error. *)
Definition error := string.

(** A computation that may panic (nil dereference, negative channel size). *)
Inductive Res (A : Type) : Type :=
| Ok (a : A)
| Panic (why : string).
Arguments Ok {A} a.
Arguments Panic {A} why.

Definition bind {A B} (r : Res A) (k : A -> Res B) : Res B :=
  match r with
  | Ok a => k a
  | Panic why => Panic why
  end.

Notation "'let*' x := r 'in' k" := (bind r (fun x => k))
  (at level 10, x name, r at level 100, k at level 200).

(** [int64] arithmetic wraps around. *)
Definition wrap64 (z : Z) : Z := (z + 2 ^ 63) mod 2 ^ 64 - 2 ^ 63.

(** The part of [os.FileInfo] the program reads. *)
Record FileInfo := { Name : string; Size : Z; IsDir : bool }.

(** [type WalkedFile struct { path string; file os.FileInfo }]; the
    interface value [file] may be nil. *)
Record WalkedFile := { path : string; file : option FileInfo }.

(** What [os.Open] followed by [io.Copy] of the whole file gives. *)
Inductive FileData :=
| OpenError (e : error)
| ReadError (e : error)
| Data (bytes : list Byte.byte).

(** One call that [filepath.Walk] makes to its callback: the path, the
    [FileInfo] (nil when [lstat] failed) and the error it reports. *)
Record WalkEntry :=
  { we_path : string; we_info : option FileInfo; we_err : option error }.

(** logrus records at the default level (Debug records are dropped). *)
Inductive Level := ErrorLevel | InfoLevel.
Record LogEntry := { level : Level; msg : string; subject : string }.

(** ** The world outside the program

    The Go packages [regexp], [crypto/md5], [runtime], [os] and
    [path/filepath] are not part of the repository: the embedding takes
    them as an interface. *)
Class Env := {
  Regexp : Type;
  (** [regexp.Compile]: the compiled expression, or the error. *)
  Compile : string -> Regexp + error;
  (** The method [MatchString] of a non-nil [Regexp]. *)
  MatchString : Regexp -> string -> bool;
  (** [fmt.Sprintf("%x", md5.Sum(content))]. *)
  md5hex : list Byte.byte -> string;
  (** [runtime.NumCPU()]. *)
  NumCPU : nat;
  (** The content found at a path when a worker opens and reads it. *)
  fileData : string -> FileData;
  (** The calls [filepath.Walk root] makes while the callback returns nil. *)
  walkCalls : string -> list WalkEntry
}.

Section Program.
Context {env : Env}.

(** ** Package-level variables *)
Record Globals := {
  singleThread : bool;
  deleteFlag : bool;
  visitCount : Z;
  fileCount : Z;
  dupCount : Z;
  minSize : Z;
  filenameMatch : string;
  filenameRegex : option Regexp;
  duplicates : gmap string (list string);
  noStats : bool;
  walkFiles : list (option WalkedFile);
  logs : list LogEntry
}.

Definition set_visitCount (v : Z) (g : Globals) : Globals :=
  {| singleThread := singleThread g; deleteFlag := deleteFlag g;
     visitCount := v; fileCount := fileCount g; dupCount := dupCount g;
     minSize := minSize g; filenameMatch := filenameMatch g;
     filenameRegex := filenameRegex g; duplicates := duplicates g;
     noStats := noStats g; walkFiles := walkFiles g; logs := logs g |}.

Definition set_fileCount (v : Z) (g : Globals) : Globals :=
  {| singleThread := singleThread g; deleteFlag := deleteFlag g;
     visitCount := visitCount g; fileCount := v; dupCount := dupCount g;
     minSize := minSize g; filenameMatch := filenameMatch g;
     filenameRegex := filenameRegex g; duplicates := duplicates g;
     noStats := noStats g; walkFiles := walkFiles g; logs := logs g |}.

Definition set_dupCount (v : Z) (g : Globals) : Globals :=
  {| singleThread := singleThread g; deleteFlag := deleteFlag g;
     visitCount := visitCount g; fileCount := fileCount g; dupCount := v;
     minSize := minSize g; filenameMatch := filenameMatch g;
     filenameRegex := filenameRegex g; duplicates := duplicates g;
     noStats := noStats g; walkFiles := walkFiles g; logs := logs g |}.

Definition set_duplicates (m : gmap string (list string)) (g : Globals) : Globals :=
  {| singleThread := singleThread g; deleteFlag := deleteFlag g;
     visitCount := visitCount g; fileCount := fileCount g;
     dupCount := dupCount g; minSize := minSize g;
     filenameMatch := filenameMatch g; filenameRegex := filenameRegex g;
     duplicates := m; noStats := noStats g; walkFiles := walkFiles g;
     logs := logs g |}.

Definition set_walkFiles (l : list (option WalkedFile)) (g : Globals) : Globals :=
  {| singleThread := singleThread g; deleteFlag := deleteFlag g;
     visitCount := visitCount g; fileCount := fileCount g;
     dupCount := dupCount g; minSize := minSize g;
     filenameMatch := filenameMatch g; filenameRegex := filenameRegex g;
     duplicates := duplicates g; noStats := noStats g; walkFiles := l;
     logs := logs g |}.

Definition set_logs (l : list LogEntry) (g : Globals) : Globals :=
  {| singleThread := singleThread g; deleteFlag := deleteFlag g;
     visitCount := visitCount g; fileCount := fileCount g;
     dupCount := dupCount g; minSize := minSize g;
     filenameMatch := filenameMatch g; filenameRegex := filenameRegex g;
     duplicates := duplicates g; noStats := noStats g;
     walkFiles := walkFiles g; logs := l |}.

(** [log.WithFields(...).Error(m)] *)
Definition logError (m subj : string) (g : Globals) : Globals :=
  set_logs (logs g ++ [{| level := ErrorLevel; msg := m; subject := subj |}]) g.

(** [filenameRegex.MatchString(name)]: a nil receiver panics. *)
Definition regexMatch (r : option Regexp) (name : string) : Res bool :=
  match r with
  | Some re => Ok (MatchString re name)
  | None => Panic "nil pointer dereference"
  end.

(** [m[hash] = append(m[hash], path)]: a missing key reads as nil. *)
Definition appendPath (hash p : string) (m : gmap string (list string))
  : gmap string (list string) :=
  <[hash := (m !!! hash) ++ [p]]> m.

(** ** [visitFile] (duplicates.go:200-207)

    The [err] argument is never read and the function always returns nil;
    [f.IsDir()] on a nil [f] panics. *)
Definition visitFile (p : string) (f : option FileInfo) (err : option error)
    (g : Globals) : Res (option error * Globals) :=
  let g := set_visitCount (wrap64 (visitCount g + 1)) g in
  match f with
  | None => Panic "nil pointer dereference"
  | Some fi =>
    let* admitted :=
      (if negb (IsDir fi) then
         if Size fi >? minSize g then
           if String.eqb (filenameMatch g) "*" then Ok true
           else regexMatch (filenameRegex g) (Name fi)
         else Ok false
       else Ok false) in
    if (admitted : bool) then
      Ok (None, set_walkFiles
                  (walkFiles g ++ [Some {| path := p; file := Some fi |}]) g)
    else Ok (None, g)
  end.

(** [filepath.Walk root visitFile]: the callback is run on each entry in
    turn; the walk stops at the first non-nil result, which it returns. *)
Fixpoint Walk (calls : list WalkEntry) (g : Globals)
  : Res (option error * Globals) :=
  match calls with
  | [] => Ok (None, g)
  | c :: rest =>
    let* r := visitFile (we_path c) (we_info c) (we_err c) g in
    match fst r with
    | None => Walk rest (snd r)
    | Some e => Ok (Some e, snd r)
    end
  end.

(** ** [scanAndHashFile] (duplicates.go:44-89)

    Called with a non-nil [f] (the worker checks it before the call). *)
Definition scanAndHashFile (p : string) (f : FileInfo) (g : Globals)
  : Res Globals :=
  let* skip :=
    (if IsDir f then Ok true
     else if Size f <=? minSize g then Ok true
     else if negb (String.eqb (filenameMatch g) "*") then
       let* m := regexMatch (filenameRegex g) (Name f) in Ok (negb m)
     else Ok false) in
  if (skip : bool) then Ok g
  else
    let g := set_fileCount (wrap64 (fileCount g + 1)) g in
    match fileData p with
    | OpenError e => Ok (logError "Failed to open file" p g)
    | ReadError e => Ok (logError "Failed to calculate hash" p g)
    | Data bytes =>
      Ok (set_duplicates (appendPath (md5hex bytes) p (duplicates g)) g)
    end.

(** ** The goroutines of [computeHashes] (duplicates.go:97-198)

    The pool is the state shared by the goroutines (the globals, the
    context, the two channels) and the control point of each goroutine. *)

Record workerStats := { processedFiles : Z; totalBytes : Z; errors : Z }.

(** Where a [worker] goroutine stands. *)
Inductive WorkerPC :=
| WSelect
  (** at the [select] at the top of the loop *)
| WProcessing (p : string) (f : FileInfo)
  (** received a valid file, [scanAndHashFile] not yet run *)
| WSend (r : option error) (exit : bool)
  (** at [results <- r]; the worker returns afterwards when [exit] *)
| WDone.

Record Worker := { pc : WorkerPC; stats : workerStats }.

(** The goroutine that sends the jobs: the files still to send, or the
    files it left unsent when it returned. *)
Inductive Dispatcher :=
| DRange (rest : list (option WalkedFile))
| DReturned (unsent : list (option WalkedFile)).

(** The collecting loop of [computeHashes]: its index and [firstErr]. *)
Inductive Collector :=
| CLoop (i : nat) (firstErr : option error)
| CReturned (firstErr : option error).

Record Pool := {
  globals : Globals;
  ctxDone : bool;
  capacity : Z;
  jobs : list (option WalkedFile);
  jobsClosed : bool;
  results : list (option error);
  dispatcher : Dispatcher;
  workers : list Worker;
  collector : Collector;
  panicked : bool
}.

Definition set_globals (g : Globals) (s : Pool) : Pool :=
  {| globals := g; ctxDone := ctxDone s; capacity := capacity s;
     jobs := jobs s; jobsClosed := jobsClosed s; results := results s;
     dispatcher := dispatcher s; workers := workers s;
     collector := collector s; panicked := panicked s |}.

Definition set_ctxDone (b : bool) (s : Pool) : Pool :=
  {| globals := globals s; ctxDone := b; capacity := capacity s;
     jobs := jobs s; jobsClosed := jobsClosed s; results := results s;
     dispatcher := dispatcher s; workers := workers s;
     collector := collector s; panicked := panicked s |}.

Definition set_jobs (l : list (option WalkedFile)) (s : Pool) : Pool :=
  {| globals := globals s; ctxDone := ctxDone s; capacity := capacity s;
     jobs := l; jobsClosed := jobsClosed s; results := results s;
     dispatcher := dispatcher s; workers := workers s;
     collector := collector s; panicked := panicked s |}.

Definition set_jobsClosed (b : bool) (s : Pool) : Pool :=
  {| globals := globals s; ctxDone := ctxDone s; capacity := capacity s;
     jobs := jobs s; jobsClosed := b; results := results s;
     dispatcher := dispatcher s; workers := workers s;
     collector := collector s; panicked := panicked s |}.

Definition set_results (l : list (option error)) (s : Pool) : Pool :=
  {| globals := globals s; ctxDone := ctxDone s; capacity := capacity s;
     jobs := jobs s; jobsClosed := jobsClosed s; results := l;
     dispatcher := dispatcher s; workers := workers s;
     collector := collector s; panicked := panicked s |}.

Definition set_dispatcher (d : Dispatcher) (s : Pool) : Pool :=
  {| globals := globals s; ctxDone := ctxDone s; capacity := capacity s;
     jobs := jobs s; jobsClosed := jobsClosed s; results := results s;
     dispatcher := d; workers := workers s;
     collector := collector s; panicked := panicked s |}.

Definition set_worker (w : nat) (x : Worker) (s : Pool) : Pool :=
  {| globals := globals s; ctxDone := ctxDone s; capacity := capacity s;
     jobs := jobs s; jobsClosed := jobsClosed s; results := results s;
     dispatcher := dispatcher s; workers := <[w := x]> (workers s);
     collector := collector s; panicked := panicked s |}.

Definition set_collector (c : Collector) (s : Pool) : Pool :=
  {| globals := globals s; ctxDone := ctxDone s; capacity := capacity s;
     jobs := jobs s; jobsClosed := jobsClosed s; results := results s;
     dispatcher := dispatcher s; workers := workers s;
     collector := c; panicked := panicked s |}.

Definition set_panicked (b : bool) (s : Pool) : Pool :=
  {| globals := globals s; ctxDone := ctxDone s; capacity := capacity s;
     jobs := jobs s; jobsClosed := jobsClosed s; results := results s;
     dispatcher := dispatcher s; workers := workers s;
     collector := collector s; panicked := b |}.

(** A send on a buffered channel is ready while the buffer has room.  (A
    channel of capacity 0 is only made when [visitCount] is 0; it is
    modelled as never ready.) *)
Definition hasRoom {A} (buf : list A) (cap : Z) : bool :=
  Z.of_nat (length buf) <? cap.

(** *** The sender goroutine (lines 173-182) *)

(** The [jobs <- file] branch, or the end of the range; the deferred
    [close(jobs)] runs when the function returns. *)
Definition dispatch_send (s : Pool) : option Pool :=
  match dispatcher s with
  | DRange [] => Some (set_jobsClosed true (set_dispatcher (DReturned []) s))
  | DRange (f :: rest) =>
    if hasRoom (jobs s) (capacity s)
    then Some (set_jobs (jobs s ++ [f]) (set_dispatcher (DRange rest) s))
    else None
  | DReturned _ => None
  end.

(** The [<-ctx.Done()] branch. *)
Definition dispatch_done (s : Pool) : option Pool :=
  match dispatcher s with
  | DRange (f :: rest) =>
    if ctxDone s
    then Some (set_jobsClosed true (set_dispatcher (DReturned (f :: rest)) s))
    else None
  | _ => None
  end.

(** *** [worker] (lines 97-145) *)

(** The [file, ok := <-jobs] branch: a buffered item, or [ok = false] once
    the channel is closed and empty; then the nil check of lines 121-125. *)
Definition worker_recv (w : nat) (s : Pool) : option Pool :=
  match workers s !! w with
  | Some wk =>
    match pc wk with
    | WSelect =>
      match jobs s with
      | item :: rest =>
        let s := set_jobs rest s in
        match item with
        | Some {| path := p; file := Some f |} =>
          Some (set_worker w {| pc := WProcessing p f; stats := stats wk |} s)
        | _ =>
          Some (set_worker w
                  {| pc := WSend (Some "received invalid file data") false;
                     stats :=
                       {| processedFiles := processedFiles (stats wk);
                          totalBytes := totalBytes (stats wk);
                          errors := wrap64 (errors (stats wk) + 1) |} |} s)
        end
      | [] =>
        if jobsClosed s
        then Some (set_worker w {| pc := WSend None true; stats := stats wk |} s)
        else None
      end
    | _ => None
    end
  | None => None
  end.

(** The [<-ctx.Done()] branch: [results <- ctx.Err(); return]. *)
Definition worker_done (w : nat) (s : Pool) : option Pool :=
  match workers s !! w with
  | Some wk =>
    match pc wk with
    | WSelect =>
      if ctxDone s
      then Some (set_worker w
                   {| pc := WSend (Some "context canceled") true;
                      stats := stats wk |} s)
      else None
    | _ => None
    end
  | None => None
  end.

(** Lines 135-142: [scanAndHashFile], then the statistics; the result to
    send is nil whatever happened to the file.  A panic in a goroutine
    ends the process. *)
Definition worker_run (w : nat) (s : Pool) : option Pool :=
  match workers s !! w with
  | Some wk =>
    match pc wk with
    | WProcessing p f =>
      match scanAndHashFile p f (globals s) with
      | Ok g =>
        Some (set_globals g
                (set_worker w
                   {| pc := WSend None false;
                      stats :=
                        {| processedFiles :=
                             wrap64 (processedFiles (stats wk) + 1);
                           totalBytes :=
                             wrap64 (totalBytes (stats wk) + Size f);
                           errors := errors (stats wk) |} |} s))
      | Panic _ => Some (set_panicked true s)
      end
    | _ => None
    end
  | None => None
  end.

(** [results <- r] *)
Definition worker_send (w : nat) (s : Pool) : option Pool :=
  match workers s !! w with
  | Some wk =>
    match pc wk with
    | WSend r exit =>
      if hasRoom (results s) (capacity s)
      then Some (set_results (results s ++ [r])
                   (set_worker w
                      {| pc := if exit then WDone else WSelect;
                         stats := stats wk |} s))
      else None
    | _ => None
    end
  | None => None
  end.

(** *** The collecting loop of [computeHashes] (lines 184-197)

    One iteration receives one value from [results]; past the last
    iteration the function returns and the deferred [cancel()] runs. *)
Definition collect (s : Pool) : option Pool :=
  match collector s with
  | CLoop i firstErr =>
    if (i <? length (walkFiles (globals s)))%nat then
      match results s with
      | r :: rest =>
        let s := set_results rest s in
        match r with
        | None => Some (set_collector (CLoop (S i) firstErr) s)
        | Some e =>
          let s := set_globals (logError "Error processing file" e (globals s)) s in
          match firstErr with
          | None => Some (set_collector (CLoop (S i) (Some e)) (set_ctxDone true s))
          | Some _ => Some (set_collector (CLoop (S i) firstErr) s)
          end
        end
      | [] => None
      end
    else Some (set_collector (CReturned firstErr) (set_ctxDone true s))
  | CReturned _ => None
  end.

(** One scheduling decision. *)
Inductive Action :=
| ADispatch
| ADispatchDone
| AWorkerRecv (w : nat)
| AWorkerDone (w : nat)
| AWorkerRun (w : nat)
| AWorkerSend (w : nat)
| ACollect.

(** The step the chosen goroutine takes, [None] when it is blocked or has
    returned. *)
Definition exec (a : Action) (s : Pool) : option Pool :=
  if panicked s then None
  else
    match a with
    | ADispatch => dispatch_send s
    | ADispatchDone => dispatch_done s
    | AWorkerRecv w => worker_recv w s
    | AWorkerDone w => worker_done w s
    | AWorkerRun w => worker_run w s
    | AWorkerSend w => worker_send w s
    | ACollect => collect s
    end.

Fixpoint run (sched : list Action) (s : Pool) : option Pool :=
  match sched with
  | [] => Some s
  | a :: rest =>
    match exec a s with
    | Some s' => run rest s'
    | None => None
    end
  end.

(** Lines 147-170: the context, the channels and the workers. *)
Definition numWorkers (g : Globals) : nat :=
  if singleThread g then 1%nat else NumCPU.

Definition computeHashes_start (g : Globals) : Res Pool :=
  if visitCount g <? 0 then Panic "makechan: size out of range"
  else
    Ok {| globals :=
            set_logs (logs g ++ [{| level := InfoLevel;
                                    msg := "Starting workers";
                                    subject := "" |}]) g;
          ctxDone := false;
          capacity := visitCount g;
          jobs := [];
          jobsClosed := false;
          results := [];
          dispatcher := DRange (walkFiles g);
          workers :=
            replicate (numWorkers g)
              {| pc := WSelect;
                 stats := {| processedFiles := 0; totalBytes := 0;
                             errors := 0 |} |};
          collector := CLoop 0 None;
          panicked := false |}.

(** A state of the pool that some schedule reaches. *)
Definition reachable (g : Globals) (s : Pool) : Prop :=
  exists s0 sched, computeHashes_start g = Ok s0 /\ run sched s0 = Some s.

(** ** [main] (duplicates.go:217-274) *)

Record Flags := {
  size_flag : Z;
  name_flag : string;
  nostats_flag : bool;
  singleThread_flag : bool;
  delete_flag : bool;
  h_flag : bool;
  args : list string
}.

(** How the process ends: [os.Exit(status)], or a panic (the Go runtime
    then exits with status 2). *)
Inductive Outcome :=
| Exited (status : Z) (g : Globals)
| Panicked (why : string).

Definition exitStatus (o : Outcome) : Z :=
  match o with
  | Exited status _ => status
  | Panicked _ => 2
  end.

(** The variables after [flag.Parse()]. *)
Definition parsed (fl : Flags) : Globals :=
  {| singleThread := singleThread_flag fl; deleteFlag := delete_flag fl;
     visitCount := 0; fileCount := 0; dupCount := 0;
     minSize := size_flag fl; filenameMatch := name_flag fl;
     filenameRegex := None; duplicates := ∅; noStats := nostats_flag fl;
     walkFiles := []; logs := [] |}.

(** Lines 240-241: [r, _ := regexp.Compile(filenameMatch)]. *)
Definition compileName (g : Globals) : Globals :=
  {| singleThread := singleThread g; deleteFlag := deleteFlag g;
     visitCount := visitCount g; fileCount := fileCount g;
     dupCount := dupCount g; minSize := minSize g;
     filenameMatch := filenameMatch g;
     filenameRegex :=
       match Compile (filenameMatch g) with
       | inl re => Some re
       | inr _ => None
       end;
     duplicates := duplicates g; noStats := noStats g;
     walkFiles := walkFiles g; logs := logs g |}.

(** Lines 248-252. *)
Definition countDuplicates (g : Globals) : Globals :=
  set_dupCount
    (map_fold (fun _ v n => if (1 <? length v)%nat then wrap64 (n + 1) else n)
       (dupCount g) (duplicates g)) g.

(** The whole program under a schedule of the pool; [None] when the
    schedule does not bring [computeHashes] to its return.  Printing and
    the [-delete] pass leave the variables unchanged and are left out. *)
Definition main (fl : Flags) (sched : list Action) : option Outcome :=
  let g := parsed fl in
  if h_flag fl then Some (Exited 0 g)
  else
    match args fl with
    | [] => Some (Exited (-1) g)
    | root :: _ =>
      let g := compileName g in
      match Walk (walkCalls root) g with
      | Panic why => Some (Panicked why)
      | Ok (err, g) =>
        let g := match err with
                 | Some e => logError e "" g
                 | None => g
                 end in
        match computeHashes_start g with
        | Panic why => Some (Panicked why)
        | Ok s0 =>
          match run sched s0 with
          | Some s =>
            if panicked s then Some (Panicked "nil pointer dereference")
            else
              match collector s with
              | CReturned _ => Some (Exited 0 (countDuplicates (globals s)))
              | CLoop _ _ => None
              end
          | None => None
          end
        end
      end
    end.

End Program.

(** ** What a state of the program shows *)
Section Observations.
Context {env : Env}.

(** The element [visitFile] appends to [walkFiles]. *)
Definition mkItem (p : string) (f : FileInfo) : option WalkedFile :=
  Some {| path := p; file := Some f |}.

Definition pathOf (item : option WalkedFile) : string :=
  match item with
  | Some wf => path wf
  | None => ""
  end.

(** The filter of [visitFile] where it does not panic. *)
Definition admitsb (g : Globals) (f : FileInfo) : bool :=
  negb (IsDir f) && (Size f >? minSize g)
  && (String.eqb (filenameMatch g) "*"
      || match filenameRegex g with
         | Some re => MatchString re (Name f)
         | None => false
         end).

Definition admitted (g : Globals) (c : WalkEntry) : bool :=
  match we_info c with
  | Some f => admitsb g f
  | None => false
  end.

(** The entries of a walk that are filtered out before dispatch. *)
Definition skipped (g : Globals) (calls : list WalkEntry) : nat :=
  length (List.filter (fun c => negb (admitted g c)) calls).

(** The files a walk appends to [walkFiles]. *)
Definition picked (g : Globals) (calls : list WalkEntry)
  : list (option WalkedFile) :=
  omap (fun c => match we_info c with
                 | Some f =>
                   if admitsb g f then Some (mkItem (we_path c) f) else None
                 | None => None
                 end) calls.

(** All the paths in the index, group after group, and their number. *)
Definition allPaths (m : gmap string (list string)) : list string :=
  map_to_list m ≫= snd.

Definition indexed (m : gmap string (list string)) : nat :=
  length (allPaths m).

(** The records [scanAndHashFile] logs when the open or the read fails. *)
Definition isScanError (e : LogEntry) : bool :=
  match level e with
  | ErrorLevel =>
    String.eqb (msg e) "Failed to open file"
    || String.eqb (msg e) "Failed to calculate hash"
  | InfoLevel => false
  end.

Definition scanErrors (l : list LogEntry) : nat :=
  length (List.filter isScanError l).

(** The file a worker has received and not yet processed. *)
Definition holding (wk : Worker) : list (option WalkedFile) :=
  match pc wk with
  | WProcessing p f => [mkItem p f]
  | _ => []
  end.

Definition inflight (ws : list Worker) : list (option WalkedFile) :=
  concat (holding <$> ws).

Definition unsent (d : Dispatcher) : list (option WalkedFile) :=
  match d with
  | DRange l => l
  | DReturned l => l
  end.

(** Every file was sent, received and processed: none is left with the
    sender, in the queue or in the hands of a worker. *)
Definition drained (s : Pool) : Prop :=
  unsent (dispatcher s) = [] /\ jobs s = [] /\ inflight (workers s) = [].

(** The index that processing the files [done], in this order, builds. *)
Definition hashedPairs (done : list (string * FileInfo)) : list (string * string) :=
  omap (fun pf => match fileData pf.1 with
                  | Data bytes => Some (md5hex bytes, pf.1)
                  | _ => None
                  end) done.

Definition failures (done : list (string * FileInfo)) : list string :=
  omap (fun pf => match fileData pf.1 with
                  | Data _ => None
                  | _ => Some pf.1
                  end) done.

(** The digest and path of a file of [walkFiles] with readable content. *)
Definition pairOf (item : option WalkedFile) : option (string * string) :=
  match fileData (pathOf item) with
  | Data bytes => Some (md5hex bytes, pathOf item)
  | _ => None
  end.

Definition buildIndex (pairs : list (string * string)) : gmap string (list string) :=
  foldl (fun m hp => appendPath hp.1 hp.2 m) ∅ pairs.

(** The variables a run of the pool never writes. *)
Definition sameConfig (g g0 : Globals) : Prop :=
  minSize g = minSize g0 /\ filenameMatch g = filenameMatch g0
  /\ filenameRegex g = filenameRegex g0 /\ walkFiles g = walkFiles g0
  /\ visitCount g = visitCount g0.

(** An element of [walkFiles] as [visitFile] builds it. *)
Definition validItem (g0 : Globals) (item : option WalkedFile) : Prop :=
  exists p f, item = mkItem p f /\ admitsb g0 f = true.

(** The invariant of the pool: [done] lists the files processed so far, in
    the order the workers finished them. *)
Record PoolInv (g0 : Globals) (done : list (string * FileInfo)) (s : Pool)
  : Prop := {
  inv_items :
    (uncurry mkItem <$> done) ++ inflight (workers s) ++ jobs s
      ++ unsent (dispatcher s) ≡ₚ walkFiles g0;
  inv_config : sameConfig (globals s) g0;
  inv_index : duplicates (globals s) = buildIndex (hashedPairs done);
  inv_fileCount : fileCount (globals s) = wrap64 (Z.of_nat (length done));
  inv_errors : scanErrors (logs (globals s)) = length (failures done);
  inv_alive : panicked s = false
}.

(** The walk of [main] went through [calls] and left the variables [g]. *)
Definition discovers (fl : Flags) (calls : list WalkEntry) (g : Globals)
  : Prop :=
  Walk calls (compileName (parsed fl)) = Ok (None, g).

(** The file an action finishes processing, if any. *)
Definition processes (a : Action) (s : Pool) : list (string * FileInfo) :=
  match a with
  | AWorkerRun w =>
    match workers s !! w with
    | Some wk =>
      match pc wk with
      | WProcessing p f => [(p, f)]
      | _ => []
      end
    | None => []
    end
  | _ => []
  end.

(** The invariant of a pool of one worker.  While the loop collects, the
    context is live, every result is nil, and the results received, queued
    and about to be sent are the files processed, plus the worker's exit
    report once it has found the queue closed, which it only does after
    the last file.  Once the loop has returned, every file is processed. *)
Definition pendingSend (c : WorkerPC) : nat :=
  match c with
  | WSend _ _ => 1
  | _ => 0
  end.

Definition exitSent (c : WorkerPC) : nat :=
  match c with
  | WSend _ true | WDone => 1
  | _ => 0
  end.

Definition SingleInv (g0 : Globals) (done : list (string * FileInfo))
    (s : Pool) : Prop :=
  exists wk, workers s = [wk] /\
    match collector s with
    | CLoop i firstErr =>
      firstErr = None /\ ctxDone s = false
      /\ Forall (fun r => r = None) (results s)
      /\ (forall r ex, pc wk = WSend r ex -> r = None)
      /\ (i + length (results s) + pendingSend (pc wk)
          = length done + exitSent (pc wk))%nat
      /\ (exitSent (pc wk) = 1%nat -> length done = length (walkFiles g0))
      /\ (jobsClosed s = true -> unsent (dispatcher s) = [])
    | CReturned _ => length done = length (walkFiles g0)
    end.

(** The error counter of a worker goes up when the file it holds cannot be
    opened or read; a property the worker is tested for below. *)
Definition countsFailures : Prop :=
  forall (s s' : Pool) (w : nat) (wk wk' : Worker) (p : string) (f : FileInfo),
    workers s !! w = Some wk -> pc wk = WProcessing p f ->
    admitsb (globals s) f = true ->
    (forall bytes, fileData p <> Data bytes) ->
    exec (AWorkerRun w) s = Some s' ->
    workers s' !! w = Some wk' ->
    errors (stats wk') = wrap64 (errors (stats wk) + 1).

End Observations.

(** ** A small world to run the program in

    [Mini] is an instance of the interface above used to evaluate the
    program on concrete trees.  Its regular expressions are a fragment of
    the RE2 syntax (literals, [.], [*], [|] and groups), matched by
    derivatives; patterns outside the fragment are reported as errors, so
    the instance is only used at patterns inside it.  Its digest is the
    content itself, a collision-free stand-in for MD5. *)
Module Mini.

Inductive re :=
| Void
| Eps
| Chr (a : ascii)
| Dot
| All
| Cat (r1 r2 : re)
| Alt (r1 r2 : re)
| Star (r : re).

Fixpoint nullable (r : re) : bool :=
  match r with
  | Void | Chr _ | Dot | All => false
  | Eps | Star _ => true
  | Cat r1 r2 => nullable r1 && nullable r2
  | Alt r1 r2 => nullable r1 || nullable r2
  end.

Fixpoint deriv (a : ascii) (r : re) : re :=
  match r with
  | Void | Eps => Void
  | Chr b => if Ascii.eqb a b then Eps else Void
  | Dot => if Ascii.eqb a "010"%char then Void else Eps
  | All => Eps
  | Cat r1 r2 =>
    if nullable r1 then Alt (Cat (deriv a r1) r2) (deriv a r2)
    else Cat (deriv a r1) r2
  | Alt r1 r2 => Alt (deriv a r1) (deriv a r2)
  | Star r1 => Cat (deriv a r1) (Star r1)
  end.

Fixpoint accepts (r : re) (s : string) : bool :=
  match s with
  | EmptyString => nullable r
  | String a rest => accepts (deriv a r) rest
  end.

(** An unanchored match: the expression may match anywhere in the text. *)
Definition matchString (r : re) (s : string) : bool :=
  accepts (Cat (Star All) (Cat r (Star All))) s.

Definition isMeta (c : ascii) : bool :=
  existsb (Ascii.eqb c)
    (list_ascii_of_string "+?[]{}^$\").

Fixpoint parseAlt (fuel : nat) (s : list ascii) : option (re * list ascii) :=
  match fuel with
  | O => None
  | S n =>
    match parseSeq n s with
    | Some (r1, c :: rest) =>
      if Ascii.eqb c "|"%char then
        match parseAlt n rest with
        | Some (r2, rest') => Some (Alt r1 r2, rest')
        | None => None
        end
      else Some (r1, c :: rest)
    | other => other
    end
  end
with parseSeq (fuel : nat) (s : list ascii) : option (re * list ascii) :=
  match fuel with
  | O => None
  | S n =>
    match s with
    | [] => Some (Eps, [])
    | c :: _ =>
      if Ascii.eqb c "|"%char || Ascii.eqb c ")"%char then Some (Eps, s)
      else
        match parsePiece n s with
        | Some (r1, rest) =>
          match parseSeq n rest with
          | Some (r2, rest') => Some (Cat r1 r2, rest')
          | None => None
          end
        | None => None
        end
    end
  end
with parsePiece (fuel : nat) (s : list ascii) : option (re * list ascii) :=
  match fuel with
  | O => None
  | S n =>
    match s with
    | [] => None
    | c :: rest =>
      let atom :=
        if Ascii.eqb c "."%char then Some (Dot, rest)
        else if Ascii.eqb c "("%char then
          match parseAlt n rest with
          | Some (r, c' :: rest') =>
            if Ascii.eqb c' ")"%char then Some (r, rest') else None
          | _ => None
          end
        else if Ascii.eqb c "*"%char || isMeta c then None
        else Some (Chr c, rest) in
      match atom with
      | Some (r, c1 :: rest1) =>
        if Ascii.eqb c1 "*"%char then
          match rest1 with
          | c2 :: _ =>
            if Ascii.eqb c2 "*"%char then None else Some (Star r, rest1)
          | [] => Some (Star r, rest1)
          end
        else Some (r, c1 :: rest1)
      | other => other
      end
    end
  end.

Definition compile (p : string) : re + error :=
  match parseAlt (4 * String.length p + 4) (list_ascii_of_string p) with
  | Some (r, []) => inl r
  | _ => inr ("error parsing regexp: " ++ p)%string
  end.

(** Compile a pattern and match a name with it. *)
Definition matches (pattern name : string) : option bool :=
  match compile pattern with
  | inl r => Some (matchString r name)
  | inr _ => None
  end.

Definition dirInfo (n : string) : FileInfo :=
  {| Name := n; Size := 4096; IsDir := true |}.

Definition fileInfo (n : string) (sz : Z) : FileInfo :=
  {| Name := n; Size := sz; IsDir := false |}.

Definition entry (p : string) (f : FileInfo) : WalkEntry :=
  {| we_path := p; we_info := Some f; we_err := None |}.

Definition failed (p : string) (f : option FileInfo) (e : error) : WalkEntry :=
  {| we_path := p; we_info := f; we_err := Some e |}.

(** The trees of the examples, as the calls [filepath.Walk] makes. *)
Definition tree (root : string) : list WalkEntry :=
  if String.eqb root "/d" then
    [ entry "/d" (dirInfo "d");
      entry "/d/a.txt" (fileInfo "a.txt" 5);
      entry "/d/b.txt" (fileInfo "b.txt" 5);
      entry "/d/c.txt" (fileInfo "c.txt" 5);
      entry "/d/locked" (fileInfo "locked" 9);
      entry "/d/tiny" (fileInfo "tiny" 1) ]
  else if String.eqb root "/one" then
    [ entry "/one" (dirInfo "one"); entry "/one/f" (fileInfo "f" 5) ]
  else if String.eqb root "/empty" then
    [ entry "/empty" (dirInfo "empty") ]
  else if String.eqb root "/gone" then
    [ entry "/gone" (dirInfo "gone");
      failed "/gone/x" None "lstat /gone/x: no such file or directory";
      entry "/gone/z.txt" (fileInfo "z.txt" 5) ]
  else if String.eqb root "/p" then
    [ entry "/p" (dirInfo "p");
      failed "/p/sub" (Some (dirInfo "sub")) "open /p/sub: permission denied";
      entry "/p/z.txt" (fileInfo "z.txt" 5) ]
  else
    [ failed root None ("lstat " ++ root ++ ": no such file or directory")%string ].

Definition content (p : string) : FileData :=
  if String.eqb p "/d/a.txt" || String.eqb p "/d/b.txt" || String.eqb p "/one/f"
  then Data (list_byte_of_string "hello")
  else if String.eqb p "/d/c.txt" || String.eqb p "/gone/z.txt"
          || String.eqb p "/p/z.txt"
  then Data (list_byte_of_string "world")
  else if String.eqb p "/d/tiny" then Data (list_byte_of_string "x")
  else if String.eqb p "/d/locked"
  then OpenError "open /d/locked: permission denied"
  else OpenError ("open " ++ p ++ ": no such file or directory")%string.

Definition world : Env :=
  {| Regexp := re;
     Compile := compile;
     MatchString := matchString;
     md5hex := string_of_list_byte;
     NumCPU := 2;
     fileData := content;
     walkCalls := tree |}.

Definition flags (pattern : string) (sz : Z) (single : bool) (root : string)
  : Flags :=
  {| size_flag := sz; name_flag := pattern; nostats_flag := false;
     singleThread_flag := single; delete_flag := false; h_flag := false;
     args := [root] |}.

(** The variables when [computeHashes] starts, [None] if the walk panicked. *)
Definition walked (fl : Flags) (root : string) : option (@Globals world) :=
  match Walk (env := world) (tree root) (compileName (parsed fl)) with
  | Ok (_, g) => Some g
  | Panic _ => None
  end.

(** The pool when [computeHashes] starts on a tree, when the walk did not
    panic. *)
Definition started (fl : Flags) (root : string) : option (@Pool world) :=
  match walked fl root with
  | Some g =>
    match computeHashes_start (env := world) g with
    | Ok s0 => Some s0
    | Panic _ => None
    end
  | None => None
  end.

(** Worker [w] takes a file from the queue, processes it and reports; the
    collecting loop receives the report. *)
Definition oneFile (w : nat) : list Action :=
  [AWorkerRecv w; AWorkerRun w; AWorkerSend w; ACollect].

(** One worker, one file after the other, then the return. *)
Definition inTurn (n : nat) : list Action :=
  replicate (S n) ADispatch ++ mjoin (replicate n (oneFile 0)) ++ [ACollect].

(** Two workers and one file: worker 0 receives the file; worker 1 finds
    the queue closed and reports its exit; the collecting loop takes that
    report for its single iteration and returns. *)
Definition race : list Action :=
  [ADispatch; ADispatch; AWorkerRecv 0; AWorkerRecv 1; AWorkerSend 1;
   ACollect; ACollect].

(** One worker that has processed three files and holds the fourth. *)
Definition holdingFourth : list Action :=
  replicate 5 ADispatch ++ mjoin (replicate 3 (oneFile 0)) ++ [AWorkerRecv 0%nat].

(** The same states as total functions, for statements about them: the
    variables after the walk, the pool at its start, and the pool after a
    schedule (the state before it when the walk or the schedule fails). *)
Definition halted (g : @Globals world) : @Pool world :=
  {| globals := g; ctxDone := false; capacity := 0; jobs := [];
     jobsClosed := true; results := []; dispatcher := DReturned [];
     workers := []; collector := CReturned None; panicked := false |}.

Definition found (fl : Flags) (root : string) : @Globals world :=
  default (compileName (parsed fl)) (walked fl root).

Definition initial (fl : Flags) (root : string) : @Pool world :=
  default (halted (found fl root)) (started fl root).

Definition after (fl : Flags) (root : string) (sched : list Action)
  : @Pool world :=
  default (initial fl root) (run (env := world) sched (initial fl root)).

End Mini.

(** ** The end of [main]: the report and the [-delete] pass

    Lines 248-268 range twice over the map [duplicates.m]; Go leaves the
    order of a map range unspecified, so both loops are embedded over the
    list of groups in the order the range happens to take, any
    permutation of [map_to_list]. *)
Section Reporting.
Context {env : Env}.

Definition newline : string := String "010"%char EmptyString.

(** What the pass does to the outside: a text written to the standard
    output, or a call of [os.Remove]. *)
Inductive Event :=
| Print (text : string)
| Remove (p : string).

(** [deleteFile] (lines 209-215); [fails p] tells whether [os.Remove]
    returns an error for [p]. *)
Definition deleteFile (fails : string -> bool) (p : string) : list Event :=
  [Print ("Deleting " +:+ p +:+ newline); Remove p]
  ++ (if fails p
      then [Print ("Error deleting file: " +:+ p +:+ " " +:+ newline)]
      else []).

(** The inner loop of lines 259-265, from index [i] on. *)
Fixpoint reportFiles (del : bool) (fails : string -> bool) (i : nat)
    (v : list string) : list Event :=
  match v with
  | [] => []
  | f :: rest =>
    (if (0 <? i)%nat && del then deleteFile fails f
     else [Print (f +:+ newline)])
    ++ reportFiles del fails (S i) rest
  end.

(** The body of the outer loop, lines 258-267. *)
Definition reportGroup (del : bool) (fails : string -> bool)
    (v : list string) : list Event :=
  if (1 <? length v)%nat
  then reportFiles del fails 0 v ++ [Print ("---------" +:+ newline)]
  else [].

(** Lines 257-268 over the groups in the order of the range. *)
Definition reportGroups (del : bool) (fails : string -> bool)
    (groups : list (string * list string)) : list Event :=
  groups ≫= (fun kv => reportGroup del fails kv.2).

(** The paths handed to [os.Remove], and the paths printed as kept. *)
Definition removed (evs : list Event) : list string :=
  omap (fun e => match e with Remove p => Some p | Print _ => None end) evs.

(** Lines 248-252 over the groups in the order of the range, from the
    value [n] of [dupCount]. *)
Definition countLoop (n : Z) (groups : list (string * list string)) : Z :=
  foldl (fun n kv => if (1 <? length kv.2)%nat then wrap64 (n + 1) else n)
    n groups.

(** [firstErr] of the collecting loop. *)
Definition firstErrOf (c : Collector) : option error :=
  match c with
  | CLoop _ e => e
  | CReturned e => e
  end.

(** No error has shown up: the loop holds no error, the context is only
    done once the loop has returned, every result sent or about to be sent
    while it collects is nil, and no worker has counted an error. *)
Definition Quiet (s : Pool) : Prop :=
  firstErrOf (collector s) = None
  /\ Forall (fun wk => errors (stats wk) = 0) (workers s)
  /\ match collector s with
     | CLoop _ _ =>
       ctxDone s = false
       /\ Forall (fun r => r = None) (results s)
       /\ Forall (fun wk => forall r ex, pc wk = WSend r ex -> r = None)
            (workers s)
     | CReturned _ => True
     end.

(** The pool at rest between two files of a run with one worker: the
    queue is closed and holds [rest], the worker waits at its [select],
    no result is pending and the loop is at iteration [i]. *)
Definition AtRest (i : nat) (rest : list (option WalkedFile)) (s : Pool)
  : Prop :=
  (exists wk, workers s = [wk] /\ pc wk = WSelect)
  /\ jobs s = rest /\ jobsClosed s = true /\ results s = []
  /\ dispatcher s = DReturned [] /\ ctxDone s = false
  /\ collector s = CLoop i None
  /\ Z.of_nat (length rest) <= capacity s.

(** The number of workers about to send a result, and of workers that have
    found the queue closed (their exit report is sent or about to be). *)
Definition pendingSends (ws : list Worker) : nat :=
  sum_list ((fun wk => pendingSend (pc wk)) <$> ws).

Definition exits (ws : list Worker) : nat :=
  sum_list ((fun wk => exitSent (pc wk)) <$> ws).

(** The invariant of a pool of any size on the files of a walk, with
    [done] the files processed so far.  While the loop collects, the
    results received, queued and about to be sent are the files processed
    plus the exit reports; the queue is closed only by a sender that has
    sent everything; and a worker has found the queue closed only if
    nothing is left to send or to receive.  Once the loop has returned,
    nothing is left to send or to receive and at most half of the workers
    hold a file. *)
Definition ManyInv (done : list (string * FileInfo)) (s : Pool) : Prop :=
  match collector s with
  | CLoop i _ =>
    (i + length (results s) + pendingSends (workers s)
     = length done + exits (workers s))%nat
    /\ (jobsClosed s = true -> dispatcher s = DReturned [])
    /\ (0 < exits (workers s) ->
        jobs s = [] /\ dispatcher s = DReturned [])%nat
  | CReturned _ =>
    jobs s = [] /\ unsent (dispatcher s) = []
    /\ (2 * length (inflight (workers s)) <= length (workers s))%nat
  end.

End Reporting.

(** ** More runs in the small world *)
Module Runs.

Definition flD : Flags := Mini.flags "*" 1 true "/d".
Definition flD2 : Flags := Mini.flags "*" 1 false "/d".
Definition flOne2 : Flags := Mini.flags "*" 1 false "/one".

(** One worker on [/d]: every file sent and [a.txt] processed; then
    [b.txt] processed as well. *)
Definition firstFile : list Action :=
  replicate 5 ADispatch ++ Mini.oneFile 0.

Definition twoFiles : list Action := firstFile ++ Mini.oneFile 0.

(** Two workers on [/d], two files at a time; of each pair the second
    file is finished first. *)
Definition pair : list Action :=
  [AWorkerRecv 0; AWorkerRecv 1; AWorkerRun 1; AWorkerRun 0;
   AWorkerSend 1; AWorkerSend 0; ACollect; ACollect].

Definition pairwise : list Action := replicate 5 ADispatch ++ pair ++ pair.

(** A queue with a nil job in front of a file: variables that no walk
    produces, for the error path of the pool. *)
Definition nilJob : @Globals Mini.world :=
  set_walkFiles [None; mkItem "/one/f" (Mini.fileInfo "f" 5)]
    (set_visitCount 2 (compileName (parsed (Mini.flags "*" 1 true "/one")))).

Definition nilStart : @Pool Mini.world :=
  match computeHashes_start (env := Mini.world) nilJob with
  | Ok s => s
  | Panic _ => Mini.halted nilJob
  end.

(** The nil job is sent, refused by the worker and reported. *)
Definition refuse : list Action :=
  [ADispatch; AWorkerRecv 0; AWorkerSend 0; ACollect].

(** Then the sender and the worker see the context done, and the loop
    receives the worker's [ctx.Err()] and returns. *)
Definition windDown : list Action :=
  [ADispatchDone; AWorkerDone 0; AWorkerSend 0; ACollect; ACollect].

Definition refused : @Pool Mini.world :=
  default nilStart (run (env := Mini.world) refuse nilStart).

Definition woundDown : @Pool Mini.world :=
  default refused (run (env := Mini.world) windDown refused).

(** Two workers on [/d]: worker 0 processes [a.txt] and receives
    [b.txt]; before it runs again worker 1 processes [c.txt] and
    [locked], finds the queue closed and reports its exit; the collecting
    loop takes that report for its fourth receive and returns. *)
Definition overtaken : list Action :=
  replicate 5 ADispatch
  ++ Mini.oneFile 0 ++ [AWorkerRecv 0%nat]
  ++ Mini.oneFile 1 ++ Mini.oneFile 1
  ++ [AWorkerRecv 1%nat; AWorkerSend 1%nat; ACollect; ACollect].

(** The whole program on [/d] in single-thread mode. *)
Definition ended : @Outcome Mini.world :=
  default (Panicked "no run") (main (env := Mini.world) flD (Mini.inTurn 4)).

End Runs.

Example mini_compile_star : Mini.compile "*" = inr "error parsing regexp: *".
Proof. reflexivity. Qed.
Example mini_compile_paren : Mini.compile "(" = inr "error parsing regexp: (".
Proof. reflexivity. Qed.
Example mini_match_dot : Mini.matches "a.c" "xabcx.txt" = Some true.
Proof. vm_compute. reflexivity. Qed.
Example mini_match_alt : Mini.matches "(txt|md)" "notes.md" = Some true.
Proof. vm_compute. reflexivity. Qed.
Example mini_nomatch : Mini.matches "tx*t" "notes.md" = Some false.
Proof. vm_compute. reflexivity. Qed.
Example mini_star_star : Mini.matches "a**" "a" = None.
Proof. vm_compute. reflexivity. Qed.
Example mini_empty : Mini.matches "" "a" = Some true.
Proof. vm_compute. reflexivity. Qed.

Ltac evaluate := vm_compute; reflexivity.

(** ** Properties *)
Section Proofs.
Context {env : Env}.

Lemma wrap64_small z : - 2 ^ 63 <= z < 2 ^ 63 -> wrap64 z = z.
Proof.
  intros Hz. unfold wrap64.
  rewrite Z.mod_small; lia.
Qed.

Lemma wrap64_succ z k : wrap64 (wrap64 z + k) = wrap64 (z + k).
Proof.
  unfold wrap64.
  replace (((z + 2 ^ 63) mod 2 ^ 64 - 2 ^ 63 + k + 2 ^ 63))
    with ((z + 2 ^ 63) mod 2 ^ 64 + k) by lia.
  replace (z + k + 2 ^ 63) with ((z + 2 ^ 63) + k) by lia.
  rewrite Zplus_mod_idemp_l. reflexivity.
Qed.

(** *** The walk *)

Lemma visitFile_nil p err g :
  visitFile p None err g = Panic "nil pointer dereference".
Proof. reflexivity. Qed.

Lemma visitFile_Ok p f err g e g' :
  visitFile p (Some f) err g = Ok (e, g') ->
  e = None /\
    g' = (if admitsb g f
          then set_walkFiles (walkFiles g ++ [mkItem p f])
                 (set_visitCount (wrap64 (visitCount g + 1)) g)
          else set_visitCount (wrap64 (visitCount g + 1)) g).
Proof.
  unfold visitFile, admitsb. cbn.
  destruct (IsDir f), (Size f >? minSize g),
    (String.eqb (filenameMatch g) "*"), (filenameRegex g) as [re|];
    cbn; try discriminate;
    try destruct (MatchString re (Name f)); by intros [= <- <-].
Qed.

Lemma admitsb_config g g' f :
  sameConfig g g' -> admitsb g f = admitsb g' f.
Proof.
  intros (Hs & Hm & Hr & _). unfold admitsb. by rewrite Hs, Hm, Hr.
Qed.

Lemma wrap64_idem z : wrap64 (wrap64 z) = wrap64 z.
Proof.
  rewrite <- (Z.add_0_r (wrap64 z)) at 1.
  rewrite wrap64_succ. by rewrite Z.add_0_r.
Qed.

Lemma picked_cons g c rest :
  picked g (c :: rest)
  = match we_info c with
    | Some f => if admitsb g f then [mkItem (we_path c) f] else []
    | None => []
    end ++ picked g rest.
Proof.
  unfold picked. simpl.
  destruct (we_info c) as [f|]; [destruct (admitsb g f)|]; reflexivity.
Qed.

Lemma Walk_Ok calls : forall g e g',
  wrap64 (visitCount g) = visitCount g ->
  Walk calls g = Ok (e, g') ->
  e = None
  /\ walkFiles g' = walkFiles g ++ picked g calls
  /\ visitCount g' = wrap64 (visitCount g + Z.of_nat (length calls))
  /\ minSize g' = minSize g /\ filenameMatch g' = filenameMatch g
  /\ filenameRegex g' = filenameRegex g
  /\ duplicates g' = duplicates g /\ fileCount g' = fileCount g
  /\ logs g' = logs g /\ singleThread g' = singleThread g.
Proof.
  induction calls as [|c rest IH]; intros g e g' Hv; cbn [Walk].
  - intros [= <- <-]. cbn. rewrite app_nil_r, Z.add_0_r. done.
  - destruct (visitFile _ _ _ g) as [[e1 g1]|] eqn:Hvis; [|discriminate].
    destruct (we_info c) as [f|] eqn:Hf; [|discriminate].
    cbn [bind fst snd]. apply visitFile_Ok in Hvis as (-> & ->).
    intros Hw. apply IH in Hw.
    2:{ destruct (admitsb g f); cbn; apply wrap64_idem. }
    destruct Hw as (-> & Hwf & Hvc & Hms & Hfm & Hfr & Hd & Hfc & Hl & Hst).
    split; [reflexivity|].
    assert (picked (if admitsb g f
          then set_walkFiles (walkFiles g ++ [mkItem (we_path c) f])
                 (set_visitCount (wrap64 (visitCount g + 1)) g)
          else set_visitCount (wrap64 (visitCount g + 1)) g) rest
            = picked g rest) as Hp.
    { by destruct (admitsb g f). }
    rewrite Hp in Hwf.
    assert (picked g (c :: rest)
            = (if admitsb g f then [mkItem (we_path c) f] else [])
                ++ picked g rest) as ->.
    { rewrite picked_cons. by rewrite Hf. }
    rewrite Hwf, Hvc, Hms, Hfm, Hfr, Hd, Hfc, Hl, Hst.
    replace (Z.of_nat (length (c :: rest)))
      with (1 + Z.of_nat (length rest)) by (cbn [length]; lia).
    clear Hwf Hvc Hms Hfm Hfr Hd Hfc Hl Hst.
    destruct (admitsb g f); cbn; rewrite wrap64_succ;
      rewrite <- ?app_assoc; repeat split; try done; f_equal; lia.
Qed.


Lemma picked_valid g calls :
  Forall (fun item => exists p f, item = mkItem p f /\ admitsb g f = true)
    (picked g calls).
Proof.
  induction calls as [|c rest IH]; [constructor|].
  rewrite picked_cons. destruct (we_info c) as [f|]; [|done].
  destruct (admitsb g f) eqn:Ha; [|done].
  constructor; [|done]. by exists (we_path c), f.
Qed.

Lemma picked_paths g calls :
  pathOf <$> picked g calls `sublist_of` we_path <$> calls.
Proof.
  induction calls as [|c rest IH]; [done|].
  rewrite picked_cons. cbn [fmap list_fmap].
  destruct (we_info c) as [f|]; [destruct (admitsb g f)|]; cbn.
  - by apply sublist_skip.
  - by apply sublist_cons.
  - by apply sublist_cons.
Qed.

Lemma picked_skipped g calls :
  (length (picked g calls) + skipped g calls)%nat = length calls.
Proof.
  unfold skipped. induction calls as [|c rest IH]; [done|].
  rewrite picked_cons. cbn [List.filter]. unfold admitted at 1.
  destruct (we_info c) as [f|]; [destruct (admitsb g f)|];
    cbn [negb length app]; lia.
Qed.

(** *** The index *)

Lemma appendPath_lookup h p m h' :
  appendPath h p m !!! h'
  = if decide (h = h') then m !!! h ++ [p] else m !!! h'.
Proof.
  unfold appendPath. case_decide as Hh.
  - subst. by rewrite lookup_total_insert_eq.
  - by rewrite lookup_total_insert_ne.
Qed.

Lemma buildIndex_snoc pairs h p :
  buildIndex (pairs ++ [(h, p)]) = appendPath h p (buildIndex pairs).
Proof. unfold buildIndex. by rewrite foldl_app. Qed.

(** The group of a fingerprint holds the paths hashed to it, in the order
    they were added. *)
Lemma buildIndex_group pairs h :
  buildIndex pairs !!! h = (filter (fun hp => hp.1 = h) pairs).*2.
Proof.
  induction pairs as [|[h' p] pairs IH] using rev_ind.
  - unfold buildIndex. cbn. by rewrite lookup_total_empty.
  - rewrite buildIndex_snoc, appendPath_lookup, filter_app, fmap_app.
    rewrite filter_cons, filter_nil. cbn [fst].
    case_decide as Hh.
    + subst. by rewrite IH.
    + rewrite IH. cbn. by rewrite app_nil_r.
Qed.

Lemma allPaths_appendPath h p m :
  allPaths (appendPath h p m) ≡ₚ p :: allPaths m.
Proof.
  unfold allPaths, appendPath. rewrite lookup_total_alt.
  destruct (m !! h) as [v|] eqn:Hm; cbn [default].
  - rewrite <- (insert_delete_eq m).
    rewrite map_to_list_insert by apply lookup_delete_eq.
    rewrite <- (map_to_list_delete m h v Hm).
    rewrite !bind_cons. cbn [snd]. solve_Permutation.
  - rewrite map_to_list_insert by done. by rewrite bind_cons.
Qed.

Lemma allPaths_buildIndex pairs : allPaths (buildIndex pairs) ≡ₚ pairs.*2.
Proof.
  induction pairs as [|[h p] pairs IH] using rev_ind.
  - unfold buildIndex, allPaths. cbn. by rewrite map_to_list_empty.
  - rewrite buildIndex_snoc, allPaths_appendPath, IH, fmap_app. cbn.
    solve_Permutation.
Qed.

Lemma allPaths_elem m h p : p ∈ m !!! h -> p ∈ allPaths m.
Proof.
  unfold allPaths. rewrite lookup_total_alt.
  destruct (m !! h) as [v|] eqn:Hm; cbn [default]; [|by intros ?%elem_of_nil].
  intros Hp. apply list_elem_of_bind. exists (h, v). split; [done|].
  by apply elem_of_map_to_list.
Qed.

Lemma indexed_buildIndex pairs : indexed (buildIndex pairs) = length pairs.
Proof.
  unfold indexed. by rewrite allPaths_buildIndex, length_fmap.
Qed.

(** *** [scanAndHashFile] on a file that passes the filter *)

Lemma scan_admitted p f g :
  admitsb g f = true ->
  scanAndHashFile p f g
  = Ok (match fileData p with
        | OpenError _ =>
          logError "Failed to open file" p
            (set_fileCount (wrap64 (fileCount g + 1)) g)
        | ReadError _ =>
          logError "Failed to calculate hash" p
            (set_fileCount (wrap64 (fileCount g + 1)) g)
        | Data bytes =>
          set_duplicates (appendPath (md5hex bytes) p (duplicates g))
            (set_fileCount (wrap64 (fileCount g + 1)) g)
        end).
Proof.
  unfold admitsb, scanAndHashFile. intros Ha.
  destruct (IsDir f); [done|]. cbn in Ha.
  destruct (Z.gtb_spec (Size f) (minSize g)) as [Hgt|]; [|done].
  destruct (Z.leb_spec (Size f) (minSize g)) as [|_]; [lia|].
  cbn in Ha. destruct (String.eqb (filenameMatch g) "*"); cbn in *.
  - by destruct (fileData p).
  - destruct (filenameRegex g) as [re|]; [|done]. cbn. rewrite Ha. cbn.
    by destruct (fileData p).
Qed.

Lemma scan_not_admitted p f g r :
  admitsb g f = false -> scanAndHashFile p f g = Ok r -> r = g.
Proof.
  unfold admitsb, scanAndHashFile. intros Ha.
  destruct (IsDir f); [by intros [= <-]|]. cbn in Ha.
  destruct (Z.gtb_spec (Size f) (minSize g)) as [Hgt|Hle];
    destruct (Z.leb_spec (Size f) (minSize g)) as [Hle'|Hgt'];
    try lia; cbn; [|by intros [= <-]].
  cbn in Ha. destruct (String.eqb (filenameMatch g) "*"); [done|]. cbn in *.
  destruct (filenameRegex g) as [re|]; [|done]. cbn. rewrite Ha. cbn.
  by intros [= <-].
Qed.

(** *** The files in flight *)

Lemma inflight_insert ws : forall w wk x,
  ws !! w = Some wk ->
  holding wk ++ inflight (<[w := x]> ws) ≡ₚ holding x ++ inflight ws.
Proof.
  unfold inflight.
  induction ws as [|a ws IH]; intros [|w] wk x Hw; try done; cbn in *.
  - injection Hw as ->. solve_Permutation.
  - specialize (IH w wk x Hw).
    rewrite (Permutation_app_swap_app (holding wk)), IH. solve_Permutation.
Qed.

Lemma inflight_holding ws w wk item :
  ws !! w = Some wk -> item ∈ holding wk -> item ∈ inflight ws.
Proof.
  unfold inflight. revert w.
  induction ws as [|a ws IH]; intros [|w] Hw Hi; try done; cbn in *;
    apply elem_of_app.
  - injection Hw as ->. by left.
  - right. by eapply IH.
Qed.

(** *** The invariant of the pool *)

Lemma scanErrors_snoc l e :
  scanErrors (l ++ [e])
  = (scanErrors l + if isScanError e then 1 else 0)%nat.
Proof.
  unfold scanErrors. rewrite List.filter_app, length_app. cbn.
  by destruct (isScanError e).
Qed.

Lemma hashedPairs_snoc done p f :
  hashedPairs (done ++ [(p, f)])
  = hashedPairs done ++ match fileData p with
                        | Data bytes => [(md5hex bytes, p)]
                        | _ => []
                        end.
Proof.
  unfold hashedPairs. rewrite omap_app. f_equal. cbn.
  by destruct (fileData p).
Qed.

Lemma failures_snoc done p f :
  failures (done ++ [(p, f)])
  = failures done ++ match fileData p with
                     | Data _ => []
                     | _ => [p]
                     end.
Proof.
  unfold failures. rewrite omap_app. f_equal. cbn.
  by destruct (fileData p).
Qed.

Lemma sameConfig_refl g : sameConfig g g.
Proof. by repeat split. Qed.

Lemma PoolInv_start g s0 :
  fileCount g = 0 -> duplicates g = ∅ -> scanErrors (logs g) = 0%nat ->
  computeHashes_start g = Ok s0 -> PoolInv g [] s0.
Proof.
  unfold computeHashes_start. intros Hfc Hd He.
  destruct (visitCount g <? 0); [done|]. intros [= <-].
  constructor; cbn -[inflight scanErrors]; try done.
  - assert (forall n (wk : Worker), pc wk = WSelect ->
              inflight (replicate n wk) = []) as Hrep.
    { intros n wk Hpc. unfold inflight, holding.
      induction n as [|n IH]; [done|]. cbn. by rewrite Hpc. }
    by rewrite Hrep.
  - by rewrite scanErrors_snoc, He.
Qed.

Lemma exec_PoolInv g0 done a s s' :
  Forall (validItem g0) (walkFiles g0) ->
  PoolInv g0 done s -> exec a s = Some s' ->
  PoolInv g0 (done ++ processes a s) s'.
Proof.
  intros Hvalid [Hitems Hcfg Hidx Hfc Herr Halive]. unfold exec.
  rewrite Halive.
  assert (forall item,
            item ∈ inflight (workers s) ++ jobs s -> validItem g0 item)
    as Hin.
  { intros item Hi. eapply Forall_forall; [exact Hvalid|].
    rewrite <- Hitems. rewrite !elem_of_app in *. tauto. }
  destruct a as [| |w|w|w|w|].
  - (* the sender sends or reaches the end *)
    unfold dispatch_send.
    destruct (dispatcher s) as [[|item rest]|] eqn:Hd; [| |done].
    + intros [= <-]. rewrite app_nil_r.
      constructor; cbn -[inflight scanErrors]; done.
    + destruct (hasRoom _ _); [|done]. intros [= <-].
      rewrite app_nil_r. constructor; cbn -[inflight scanErrors]; try done.
      rewrite <- Hitems. cbn. solve_Permutation.
  - (* the sender sees the context done *)
    unfold dispatch_done.
    destruct (dispatcher s) as [[|item rest]|] eqn:Hd; try done.
    destruct (ctxDone s); [|done]. intros [= <-].
    rewrite app_nil_r. constructor; cbn -[inflight scanErrors]; done.
  - (* a worker receives *)
    unfold worker_recv.
    cbn [processes].
    destruct (workers s !! w) as [wk|] eqn:Hw; [|done].
    destruct (pc wk) eqn:Hpc; try done.
    pose proof (fun x => inflight_insert (workers s) w wk x Hw) as Hins.
    unfold holding at 1 in Hins. rewrite Hpc in Hins. cbn in Hins.
    destruct (jobs s) as [|item rest] eqn:Hj.
    + destruct (jobsClosed s); [|done]. intros [= <-].
      rewrite app_nil_r. constructor; cbn -[inflight scanErrors]; try done.
      by rewrite Hins, Hj.
    + destruct (Hin item) as (p & f & -> & Ha).
      { rewrite elem_of_app. right. by left. }
      cbn. intros [= <-].
      rewrite app_nil_r. constructor; cbn -[inflight scanErrors]; try done.
      rewrite Hins. rewrite <- Hitems. cbn. solve_Permutation.
  - (* a worker sees the context done *)
    unfold worker_done.
    cbn [processes].
    destruct (workers s !! w) as [wk|] eqn:Hw; [|done].
    destruct (pc wk) eqn:Hpc; try done.
    pose proof (fun x => inflight_insert (workers s) w wk x Hw) as Hins.
    unfold holding at 1 in Hins. rewrite Hpc in Hins. cbn in Hins.
    destruct (ctxDone s); [|done]. intros [= <-].
    rewrite app_nil_r. constructor; cbn -[inflight scanErrors]; try done.
    by rewrite Hins.
  - (* a worker processes its file *)
    unfold worker_run.
    cbn [processes].
    destruct (workers s !! w) as [wk|] eqn:Hw; [|done].
    destruct (pc wk) as [|p f| |] eqn:Hpc; try done.
    pose proof (fun x => inflight_insert (workers s) w wk x Hw) as Hins.
    unfold holding at 1 in Hins. rewrite Hpc in Hins. cbn in Hins.
    destruct (Hin (mkItem p f)) as (p' & f' & [= <- <-] & Ha).
    { rewrite elem_of_app. left. eapply inflight_holding; [done|].
      unfold holding. rewrite Hpc. by left. }
    rewrite <- (admitsb_config _ _ _ Hcfg) in Ha.
    rewrite (scan_admitted _ _ _ Ha). intros [= <-].
    destruct Hcfg as (? & ? & ? & ? & ?).
    constructor.
    + cbn -[holding]. rewrite fmap_app. cbn -[holding].
      rewrite <- Hitems.
      rewrite <- (Hins {| pc := WSend None false;
                          stats := {| processedFiles := wrap64 (processedFiles (stats wk) + 1);
                                      totalBytes := wrap64 (totalBytes (stats wk) + Size f);
                                      errors := errors (stats wk) |} |}).
      cbn. solve_Permutation.
    + by destruct (fileData p).
    + rewrite hashedPairs_snoc.
      destruct (fileData p); cbn; rewrite ?app_nil_r; try done.
      by rewrite buildIndex_snoc, Hidx.
    + rewrite length_app. cbn [length].
      replace (Z.of_nat (length done + 1)) with (Z.of_nat (length done) + 1)
        by lia.
      rewrite <- (wrap64_succ (Z.of_nat (length done)) 1), <- Hfc.
      by destruct (fileData p).
    + rewrite failures_snoc, length_app.
      destruct (fileData p); cbn -[scanErrors];
        rewrite ?scanErrors_snoc; cbn -[scanErrors]; rewrite Herr; lia.
    + done.
  - (* a worker sends its result *)
    unfold worker_send.
    cbn [processes].
    destruct (workers s !! w) as [wk|] eqn:Hw; [|done].
    destruct (pc wk) as [| |r ex|] eqn:Hpc; try done.
    pose proof (fun x => inflight_insert (workers s) w wk x Hw) as Hins.
    unfold holding at 1 in Hins. rewrite Hpc in Hins. cbn in Hins.
    destruct (hasRoom _ _); [|done]. intros [= <-].
    rewrite app_nil_r. constructor; cbn -[inflight scanErrors]; try done.
    rewrite Hins. unfold holding. cbn. by destruct ex.
  - (* the collecting loop *)
    unfold collect.
    destruct (collector s) as [i fe|]; [|done].
    destruct (i <? _)%nat.
    + destruct (results s) as [|[e|] rest]; [done| |].
      * destruct fe; intros [= <-]; rewrite app_nil_r;
          constructor; cbn -[inflight scanErrors]; try done; by rewrite scanErrors_snoc, Herr.
      * intros [= <-]. rewrite app_nil_r.
        constructor; cbn -[inflight scanErrors]; done.
    + intros [= <-]. rewrite app_nil_r.
      constructor; cbn -[inflight scanErrors]; done.
Qed.

Lemma run_PoolInv g0 sched : forall done s s',
  Forall (validItem g0) (walkFiles g0) ->
  PoolInv g0 done s -> run sched s = Some s' ->
  exists more, PoolInv g0 (done ++ more) s'.
Proof.
  induction sched as [|a sched IH]; intros done s s' Hvalid Hinv; cbn.
  - intros [= <-]. exists []. by rewrite app_nil_r.
  - destruct (exec a s) as [s1|] eqn:Hex; [|done].
    pose proof (exec_PoolInv _ _ _ _ _ Hvalid Hinv Hex) as Hinv1.
    intros Hrun. destruct (IH _ _ _ Hvalid Hinv1 Hrun) as (more & Hinv').
    exists (processes a s ++ more). by rewrite app_assoc.
Qed.

Lemma discovers_facts fl calls g :
  discovers fl calls g ->
  walkFiles g = picked g calls
  /\ visitCount g = wrap64 (Z.of_nat (length calls))
  /\ fileCount g = 0 /\ duplicates g = ∅ /\ logs g = []
  /\ filenameMatch g = name_flag fl /\ minSize g = size_flag fl
  /\ singleThread g = singleThread_flag fl
  /\ Forall (validItem g) (walkFiles g).
Proof.
  unfold discovers. intros Hw.
  apply Walk_Ok in Hw; [|done].
  destruct Hw as (_ & Hwf & Hvc & Hms & Hfm & Hfr & Hd & Hfc & Hl & Hst).
  cbn in *.
  assert (picked (compileName (parsed fl)) calls = picked g calls) as Hp.
  { unfold picked, admitsb. by rewrite Hms, Hfm, Hfr. }
  rewrite Hp in Hwf. repeat split; try done.
  rewrite Hwf. apply picked_valid.
Qed.

(** Every state a schedule reaches satisfies the invariant. *)
Lemma reachable_PoolInv fl calls g s :
  discovers fl calls g -> reachable g s -> exists done, PoolInv g done s.
Proof.
  intros Hdisc (s0 & sched & Hstart & Hrun).
  destruct (discovers_facts _ _ _ Hdisc)
    as (_ & _ & Hfc & Hd & Hl & _ & _ & _ & Hvalid).
  destruct (run_PoolInv g sched [] s0 s) as (more & Hinv); try done.
  { apply PoolInv_start; try done. by rewrite Hl. }
  eauto.
Qed.

Lemma buildIndex_elem pairs h p :
  p ∈ buildIndex pairs !!! h <-> (h, p) ∈ pairs.
Proof.
  rewrite buildIndex_group, list_elem_of_fmap. split.
  - intros ([h' p'] & -> & Hin). apply list_elem_of_filter in Hin as [Hh Hin].
    cbn in *. by subst.
  - intros Hin. exists (h, p). split; [done|].
    by apply list_elem_of_filter.
Qed.

Lemma hashedPairs_elem done h p :
  (h, p) ∈ hashedPairs done ->
  exists bytes, fileData p = Data bytes /\ h = md5hex bytes.
Proof.
  unfold hashedPairs. rewrite list_elem_of_omap.
  intros ([p' f] & _ & Hx). cbn in Hx.
  destruct (fileData p') as [| |bytes] eqn:Hdata; try done.
  injection Hx as <- <-. eauto.
Qed.

Lemma hashedPairs_paths done : (hashedPairs done).*2 `sublist_of` done.*1.
Proof.
  induction done as [|[p f] done IH]; [done|].
  unfold hashedPairs in *. cbn.
  destruct (fileData p); cbn; by constructor.
Qed.

Lemma outcomes_length done :
  (length (hashedPairs done) + length (failures done))%nat = length done.
Proof.
  induction done as [|[p f] done IH]; [done|].
  unfold hashedPairs, failures in *. cbn.
  destruct (fileData p); cbn; lia.
Qed.

Lemma done_paths done rest :
  pathOf <$> (uncurry mkItem <$> done) ++ rest
  = done.*1 ++ (pathOf <$> rest).
Proof.
  rewrite fmap_app. f_equal. rewrite <- list_fmap_compose.
  apply list_fmap_ext. by intros _ [p f] _.
Qed.

Lemma PoolInv_member g0 done s h p :
  PoolInv g0 done s ->
  p ∈ duplicates (globals s) !!! h <-> (h, p) ∈ hashedPairs done.
Proof. intros Hinv. rewrite (inv_index _ _ _ Hinv). apply buildIndex_elem. Qed.

Lemma PoolInv_NoDup g0 done s :
  PoolInv g0 done s -> NoDup (pathOf <$> walkFiles g0) ->
  NoDup (hashedPairs done).*2.
Proof.
  intros Hinv Hnd. rewrite <- (inv_items _ _ _ Hinv), done_paths in Hnd.
  apply NoDup_app in Hnd as (Hnd & _).
  exact (sublist_NoDup _ _ Hnd (hashedPairs_paths done)).
Qed.

(** *** A pool of one worker *)

Lemma PoolInv_lengths g0 done s :
  PoolInv g0 done s ->
  (length done + length (inflight (workers s)) + length (jobs s)
   + length (unsent (dispatcher s)))%nat = length (walkFiles g0).
Proof.
  intros Hinv. rewrite <- (inv_items _ _ _ Hinv).
  rewrite !length_app, length_fmap. lia.
Qed.

Lemma exec_workers_length a s s' :
  exec a s = Some s' -> length (workers s') = length (workers s).
Proof.
  unfold exec, dispatch_send, dispatch_done, worker_recv, worker_done,
    worker_run, worker_send, collect.
  intros Hex.
  repeat match type of Hex with
         | Some _ = Some _ => injection Hex as <-
         | None = Some _ => discriminate
         | (let _ := _ in _) = _ => cbn zeta in Hex
         | match ?x with _ => _ end = _ => destruct x eqn:?
         | (if ?x then _ else _) = _ => destruct x eqn:?
         end; cbn; by rewrite ?length_insert.
Qed.

Lemma exec_returned a s s' fe :
  exec a s = Some s' -> collector s = CReturned fe ->
  collector s' = CReturned fe.
Proof.
  unfold exec, dispatch_send, dispatch_done, worker_recv, worker_done,
    worker_run, worker_send, collect.
  intros Hex Hc. rewrite Hc in Hex.
  repeat match type of Hex with
         | Some _ = Some _ => injection Hex as <-
         | None = Some _ => discriminate
         | (let _ := _ in _) = _ => cbn zeta in Hex
         | match ?x with _ => _ end = _ => destruct x eqn:?
         | (if ?x then _ else _) = _ => destruct x eqn:?
         end; done.
Qed.

Lemma exec_SingleInv g0 done a s s' :
  Forall (validItem g0) (walkFiles g0) ->
  PoolInv g0 done s -> SingleInv g0 done s -> exec a s = Some s' ->
  SingleInv g0 (done ++ processes a s) s'.
Proof.
  intros Hvalid Hinv (wk & Hws & Hs) Hex.
  pose proof (PoolInv_lengths _ _ _ Hinv) as Hlen.
  pose proof (inv_items _ _ _ Hinv) as Hitems.
  assert (forall item, item ∈ jobs s -> validItem g0 item) as Hin.
  { intros item Hi. eapply Forall_forall; [exact Hvalid|].
    rewrite <- Hitems, !elem_of_app. tauto. }
  revert Hex. unfold exec. rewrite (inv_alive _ _ _ Hinv).
  rewrite Hws in Hlen. unfold inflight, holding in Hlen. cbn in Hlen.
  destruct (collector s) as [i fe|fe] eqn:Hc.
  - destruct Hs as (-> & Hctx & Hres & Hnil & Hcount & Hexit & Hclosed).
    destruct a as [| |w|w|w|w|]; cbn [processes].
    + unfold dispatch_send.
      destruct (dispatcher s) as [[|item rest]|] eqn:Hd; [| |done].
      * intros [= <-]. exists wk. cbn. rewrite Hc, app_nil_r. by repeat split.
      * destruct (hasRoom _ _); [|done]. intros [= <-].
        exists wk. cbn. rewrite Hc, app_nil_r. repeat split; try done.
        intros Hcl. by specialize (Hclosed Hcl).
    + unfold dispatch_done.
      destruct (dispatcher s) as [[|item rest]|]; try done.
      by rewrite Hctx.
    + unfold worker_recv. rewrite Hws.
      destruct w as [|w]; [|done]. cbn [lookup list_lookup].
      destruct (pc wk) eqn:Hpc; try done.
      destruct (jobs s) as [|item rest] eqn:Hj.
      * destruct (jobsClosed s) eqn:Hcl; [|done]. intros [= <-].
        eexists. cbn. rewrite Hws, Hc, app_nil_r. cbn.
        split; [reflexivity|]. specialize (Hclosed eq_refl).
        rewrite Hclosed in Hlen. cbn in *.
        repeat split; try done; try lia.
        by intros r ex [= <- <-].
      * destruct (Hin item) as (p & f & -> & _); [by left|].
        cbn. intros [= <-].
        eexists. cbn. rewrite Hws, Hc, app_nil_r. cbn.
        split; [reflexivity|]. repeat split; try done.
    + unfold worker_done. rewrite Hws.
      destruct w as [|w]; [|done]. cbn [lookup list_lookup].
      destruct (pc wk); try done. by rewrite Hctx.
    + unfold worker_run. rewrite Hws.
      destruct w as [|w]; [|done]. cbn [lookup list_lookup].
      destruct (pc wk) as [|p f| |] eqn:Hpc; try done.
      destruct (scanAndHashFile p f (globals s)) as [g1|] eqn:Hscan;
        intros [= <-].
      * eexists. cbn. rewrite Hws, Hc. cbn.
        split; [reflexivity|]. rewrite length_app. cbn in *.
        repeat split; try done; try lia.
        by intros r ex [= <- <-].
      * pose proof (exec_PoolInv g0 done (AWorkerRun 0) s
                      (set_panicked true s) Hvalid Hinv) as Hbad.
        unfold exec, worker_run in Hbad.
        rewrite (inv_alive _ _ _ Hinv), Hws in Hbad. cbn in Hbad.
        rewrite Hpc, Hscan in Hbad.
        by pose proof (inv_alive _ _ _ (Hbad eq_refl)).
    + unfold worker_send. rewrite Hws.
      destruct w as [|w]; [|done]. cbn [lookup list_lookup].
      destruct (pc wk) as [| |r ex|] eqn:Hpc; try done.
      destruct (hasRoom _ _); [|done]. intros [= <-].
      rewrite (Hnil r ex eq_refl) in *.
      eexists. cbn. rewrite Hws, Hc, app_nil_r. cbn.
      split; [reflexivity|]. rewrite length_app. cbn in *.
      destruct ex; cbn in *; repeat split; try done; try lia;
        by apply Forall_app; split; [|repeat constructor].
    + unfold collect. rewrite Hc.
      destruct (Nat.ltb_spec i (length (walkFiles (globals s)))) as [Hi|Hi].
      * destruct (results s) as [|r rest] eqn:Hr; [done|].
        apply Forall_cons in Hres as [-> Hres]. intros [= <-].
        exists wk. cbn. rewrite app_nil_r. cbn in *.
        repeat split; try done; lia.
      * intros [= <-]. exists wk. cbn. rewrite app_nil_r.
        destruct (inv_config _ _ _ Hinv) as (_ & _ & _ & Hwf & _).
        rewrite Hwf in Hi.
        split; [done|].
        destruct (pc wk) as [|p f|r [|]|]; cbn in *; lia.
  - (* the loop has returned: nothing is left to process *)
    assert (processes a s = []) as ->.
    { destruct a as [| |w|w|w|w|]; try done. cbn. rewrite Hws.
      destruct w as [|w]; [|done]. cbn.
      destruct (pc wk); try done. cbn in Hlen. lia. }
    rewrite app_nil_r. intros Hex.
    assert (exec a s = Some s') as Hex'
      by (unfold exec; by rewrite (inv_alive _ _ _ Hinv)).
    pose proof (exec_workers_length _ _ _ Hex') as Hl.
    rewrite Hws in Hl.
    destruct (workers s') as [|wk' [|]] eqn:Hws'; try done.
    exists wk'. split; [done|].
    by rewrite (exec_returned _ _ _ _ Hex' Hc).
Qed.

Lemma run_SingleInv g0 sched : forall done s s',
  Forall (validItem g0) (walkFiles g0) ->
  PoolInv g0 done s -> SingleInv g0 done s -> run sched s = Some s' ->
  exists more, PoolInv g0 (done ++ more) s' /\ SingleInv g0 (done ++ more) s'.
Proof.
  induction sched as [|a sched IH]; intros done s s' Hvalid Hinv Hone; cbn.
  - intros [= <-]. exists []. by rewrite app_nil_r.
  - destruct (exec a s) as [s1|] eqn:Hex; [|done].
    pose proof (exec_PoolInv _ _ _ _ _ Hvalid Hinv Hex) as Hinv1.
    pose proof (exec_SingleInv _ _ _ _ _ Hvalid Hinv Hone Hex) as Hone1.
    intros Hrun.
    destruct (IH _ _ _ Hvalid Hinv1 Hone1 Hrun) as (more & Hinv' & Hone').
    exists (processes a s ++ more). by rewrite app_assoc.
Qed.

Lemma SingleInv_start g s0 :
  numWorkers g = 1%nat -> computeHashes_start g = Ok s0 -> SingleInv g [] s0.
Proof.
  unfold computeHashes_start. intros Hn.
  destruct (visitCount g <? 0); [done|]. intros [= <-].
  eexists. cbn. rewrite Hn. split; [reflexivity|]. cbn.
  by repeat split.
Qed.

(** With one worker the collecting loop returns only when every file has
    been processed. *)
Lemma one_worker_returns_drained fl calls g s fe :
  discovers fl calls g -> numWorkers g = 1%nat -> reachable g s ->
  collector s = CReturned fe -> drained s.
Proof.
  intros Hdisc Hn (s0 & sched & Hstart & Hrun) Hc.
  destruct (discovers_facts _ _ _ Hdisc)
    as (_ & _ & Hfc & Hd & Hl & _ & _ & _ & Hvalid).
  destruct (run_SingleInv g sched [] s0 s) as (more & Hinv & Hone);
    try done.
  { apply PoolInv_start; try done. by rewrite Hl. }
  { by apply SingleInv_start. }
  destruct Hone as (wk & _ & Hone). rewrite Hc in Hone.
  pose proof (PoolInv_lengths _ _ _ Hinv) as Hlen.
  unfold drained.
  cbn in Hone.
  destruct (unsent (dispatcher s)), (jobs s), (inflight (workers s));
    cbn in Hlen; try lia. done.
Qed.

(** *** Drained states *)

Lemma hashedPairs_items done :
  hashedPairs done = omap pairOf (uncurry mkItem <$> done).
Proof.
  induction done as [|[p f] done IH]; [done|].
  unfold hashedPairs, pairOf in *. cbn. rewrite <- IH.
  by destruct (fileData p).
Qed.

(** In a drained state the group of a digest holds, in some order, the
    admitted files whose content has that digest. *)
Lemma drained_group g done s h :
  PoolInv g done s -> drained s ->
  duplicates (globals s) !!! h
  ≡ₚ (filter (fun hp => hp.1 = h) (omap pairOf (walkFiles g))).*2.
Proof.
  intros Hinv (Hu & Hj & Hi).
  pose proof (inv_items _ _ _ Hinv) as Hitems.
  rewrite Hu, Hj, Hi, !app_nil_r in Hitems.
  by rewrite (inv_index _ _ _ Hinv), buildIndex_group, hashedPairs_items,
    Hitems.
Qed.

Lemma discovers_regex fl calls g :
  discovers fl calls g ->
  filenameRegex g = match Compile (name_flag fl) with
                    | inl re => Some re
                    | inr _ => None
                    end.
Proof.
  unfold discovers. intros Hw. apply Walk_Ok in Hw; [|done].
  by destruct Hw as (_ & _ & _ & _ & _ & -> & _).
Qed.

(** Two runs over the same walk with the same filter, whatever their pool
    sizes, hold the same groups up to the order of the paths once both
    are drained. *)
Lemma drained_same_index fl1 fl2 calls g1 g2 s1 s2 h :
  size_flag fl1 = size_flag fl2 -> name_flag fl1 = name_flag fl2 ->
  discovers fl1 calls g1 -> discovers fl2 calls g2 ->
  reachable g1 s1 -> reachable g2 s2 -> drained s1 -> drained s2 ->
  duplicates (globals s1) !!! h ≡ₚ duplicates (globals s2) !!! h.
Proof.
  intros Hsz Hnm Hd1 Hd2 Hr1 Hr2 Hdr1 Hdr2.
  destruct (reachable_PoolInv _ _ _ _ Hd1 Hr1) as (done1 & Hinv1).
  destruct (reachable_PoolInv _ _ _ _ Hd2 Hr2) as (done2 & Hinv2).
  rewrite (drained_group _ _ _ h Hinv1 Hdr1), (drained_group _ _ _ h Hinv2 Hdr2).
  destruct (discovers_facts _ _ _ Hd1) as (-> & _ & _ & _ & _ & Hm1 & Hs1 & _).
  destruct (discovers_facts _ _ _ Hd2) as (-> & _ & _ & _ & _ & Hm2 & Hs2 & _).
  assert (picked g1 calls = picked g2 calls) as ->; [|done].
  unfold picked, admitsb.
  by rewrite Hm1, Hm2, Hs1, Hs2, (discovers_regex _ _ _ Hd1),
    (discovers_regex _ _ _ Hd2), Hsz, Hnm.
Qed.

(** *** Fingerprint groups *)

(** C2: for two files with readable content, in every state the pool
    reaches: when both are in the index, each is under the digest of its
    own content, so equal contents share a group and contents with
    different digests never do; and once a worker has processed the
    first file, its path is in the group of its content's digest from
    then on. *)
Theorem C2_fingerprint_groups fl calls g s p1 p2 b1 b2 :
  discovers fl calls g -> reachable g s ->
  fileData p1 = Data b1 -> fileData p2 = Data b2 ->
  (forall h1 h2,
      p1 ∈ duplicates (globals s) !!! h1 ->
      p2 ∈ duplicates (globals s) !!! h2 ->
      h1 = md5hex b1 /\ h2 = md5hex b2
      /\ (b1 = b2 -> h1 = h2)
      /\ (md5hex b1 <> md5hex b2 -> h1 <> h2))
  /\ (forall w wk f s1 sched s2,
         workers s !! w = Some wk -> pc wk = WProcessing p1 f ->
         exec (AWorkerRun w) s = Some s1 -> run sched s1 = Some s2 ->
         p1 ∈ duplicates (globals s2) !!! md5hex b1).
Proof.
  intros Hdisc Hreach Hb1 Hb2.
  destruct (reachable_PoolInv _ _ _ _ Hdisc Hreach) as (done & Hinv).
  split.
  - intros h1 h2 Hp1 Hp2.
    apply (PoolInv_member _ _ _ _ _ Hinv), hashedPairs_elem in Hp1
      as (b1' & Hb1' & ->).
    apply (PoolInv_member _ _ _ _ _ Hinv), hashedPairs_elem in Hp2
      as (b2' & Hb2' & ->).
    rewrite Hb1 in Hb1'. rewrite Hb2 in Hb2'.
    injection Hb1' as <-. injection Hb2' as <-.
    repeat split; [by intros ->|done].
  - intros w wk f s1 sched s2 Hw Hpc Hex Hrun.
    destruct (discovers_facts _ _ _ Hdisc)
      as (_ & _ & _ & _ & _ & _ & _ & _ & Hvalid).
    pose proof (exec_PoolInv _ _ _ _ _ Hvalid Hinv Hex) as Hinv1.
    cbn in Hinv1. rewrite Hw, Hpc in Hinv1.
    destruct (run_PoolInv _ _ _ _ _ Hvalid Hinv1 Hrun) as (more & Hinv2).
    apply (PoolInv_member _ _ _ _ _ Hinv2).
    unfold hashedPairs. rewrite !omap_app, !elem_of_app. left. right.
    cbn. rewrite Hb1. by left.
Qed.

(** *** Each path at most once *)

(** C8: when the walk reports each path once, then in every state the pool
    reaches the paths of the index, all groups together, are without
    repetition; so a path is in at most one group, at most once in it, and
    that group is the one of the digest of its content. *)
Theorem C8_path_at_most_once fl calls g s :
  discovers fl calls g -> NoDup (we_path <$> calls) -> reachable g s ->
  NoDup (allPaths (duplicates (globals s)))
  /\ (forall h, NoDup (duplicates (globals s) !!! h))
  /\ (forall h1 h2 p,
         p ∈ duplicates (globals s) !!! h1 ->
         p ∈ duplicates (globals s) !!! h2 -> h1 = h2)
  /\ (forall h p,
         p ∈ duplicates (globals s) !!! h ->
         exists bytes, fileData p = Data bytes /\ h = md5hex bytes).
Proof.
  intros Hdisc Hnd Hreach.
  destruct (reachable_PoolInv _ _ _ _ Hdisc Hreach) as (done & Hinv).
  destruct (discovers_facts _ _ _ Hdisc) as (Hwf & _).
  assert (NoDup (hashedPairs done).*2) as Hpairs.
  { eapply PoolInv_NoDup; [done|]. rewrite Hwf.
    exact (sublist_NoDup _ _ Hnd (picked_paths g calls)). }
  assert (forall h p,
             p ∈ duplicates (globals s) !!! h ->
             exists bytes, fileData p = Data bytes /\ h = md5hex bytes) as Hown.
  { intros h p Hp.
    by apply (PoolInv_member _ _ _ _ _ Hinv), hashedPairs_elem in Hp. }
  repeat split; [| | |done].
  - by rewrite (inv_index _ _ _ Hinv), allPaths_buildIndex.
  - intros h. rewrite (inv_index _ _ _ Hinv), buildIndex_group.
    refine (sublist_NoDup _ _ Hpairs _).
    apply fmap_sublist, sublist_filter.
  - intros h1 h2 p Hp1 Hp2.
    apply Hown in Hp1 as (c1 & Hc1 & ->). apply Hown in Hp2 as (c2 & Hc2 & ->).
    rewrite Hc1 in Hc2. by injection Hc2 as <-.
Qed.

(** *** Counters *)

(** Once every file the walk admitted has been sent, received and
    processed, the number of visited entries is the number of indexed
    paths plus the number of filtered entries plus the number of logged
    open or read failures; the program's own counter [fileCount] is the
    number of indexed paths plus the number of those failures. *)
Lemma counters_when_drained fl calls g s :
  discovers fl calls g -> Z.of_nat (length calls) < 2 ^ 63 ->
  reachable g s -> drained s ->
  visitCount (globals s)
  = Z.of_nat (indexed (duplicates (globals s)) + skipped g calls
              + scanErrors (logs (globals s)))
  /\ fileCount (globals s)
     = Z.of_nat (indexed (duplicates (globals s))
                 + scanErrors (logs (globals s))).
Proof.
  intros Hdisc Hlen Hreach (Hd & Hj & Hi).
  destruct (reachable_PoolInv _ _ _ _ Hdisc Hreach) as (done & Hinv).
  destruct (discovers_facts _ _ _ Hdisc) as (Hwf & Hvc & _).
  pose proof (inv_items _ _ _ Hinv) as Hitems.
  rewrite Hd, Hj, Hi in Hitems. cbn in Hitems. rewrite !app_nil_r in Hitems.
  apply Permutation_length in Hitems.
  rewrite length_fmap, Hwf in Hitems.
  pose proof (picked_skipped g calls) as Hps.
  pose proof (outcomes_length done) as Hout.
  destruct (inv_config _ _ _ Hinv) as (_ & _ & _ & _ & Hv).
  rewrite Hv, Hvc, (inv_fileCount _ _ _ Hinv), (inv_index _ _ _ Hinv),
    indexed_buildIndex, (inv_errors _ _ _ Hinv).
  rewrite !wrap64_small by lia. lia.
Qed.

(** *** The filter *)

Lemma admitsb_size g f : admitsb g f = true -> minSize g < Size f.
Proof.
  unfold admitsb. intros Ha.
  apply andb_prop in Ha as [Ha _]. apply andb_prop in Ha as [_ Ha]. lia.
Qed.

(** C9: a file whose size equals the minimum is counted as visited and
    nothing else: [visitFile] does not append it to [walkFiles], so after
    the walk no file of [walkFiles] has that size and none is dispatched,
    and [scanAndHashFile] returns at once without hashing it. *)
Theorem C9_size_equal_to_minimum_filtered p f err g :
  Size f = minSize g ->
  visitFile p (Some f) err g
  = Ok (None, set_visitCount (wrap64 (visitCount g + 1)) g)
  /\ scanAndHashFile p f g = Ok g
  /\ (forall fl calls g1 item,
         discovers fl calls g1 -> minSize g1 = minSize g ->
         item ∈ walkFiles g1 ->
         exists p1 f1, item = mkItem p1 f1 /\ Size f < Size f1).
Proof.
  intros Hsz. repeat split.
  - unfold visitFile. cbn. rewrite Hsz.
    destruct (IsDir f); cbn; [done|].
    destruct (Z.gtb_spec (minSize g) (minSize g)); [lia|done].
  - unfold scanAndHashFile. rewrite Hsz.
    destruct (IsDir f); cbn; [done|].
    destruct (Z.leb_spec (minSize g) (minSize g)); [done|lia].
  - intros fl calls g1 item Hdisc Hmin Hin.
    destruct (discovers_facts _ _ _ Hdisc)
      as (_ & _ & _ & _ & _ & _ & _ & _ & Hvalid).
    rewrite Forall_forall in Hvalid.
    destruct (Hvalid item Hin) as (p1 & f1 & -> & Ha).
    exists p1, f1. split; [done|]. apply admitsb_size in Ha. lia.
Qed.

(** Once the arguments are there, [main] has no exit of its own before
    the walk: it ends in a panic or with status 0 after the whole walk. *)
Lemma main_after_args fl root rest sched o :
  h_flag fl = false -> args fl = root :: rest ->
  main fl sched = Some o ->
  match o with
  | Panicked _ => True
  | Exited status g =>
    status = 0
    /\ visitCount g = wrap64 (Z.of_nat (length (walkCalls root)))
  end.
Proof.
  intros Hh Hargs. unfold main. rewrite Hh, Hargs.
  destruct (Walk _ _) as [[e g1]|] eqn:Hw; [|by intros [= <-]].
  pose proof Hw as Hw'. apply Walk_Ok in Hw' as (-> & _); [|done].
  destruct (computeHashes_start g1) as [s0|] eqn:Hs0; [|by intros [= <-]].
  destruct (run sched s0) as [s1|] eqn:Hrun; [|done].
  destruct (panicked s1); [by intros [= <-]|].
  destruct (collector s1); [done|]. intros [= <-]. split; [done|].
  destruct (reachable_PoolInv fl (walkCalls root) g1 s1 Hw) as (done & Hinv).
  { by exists s0, sched. }
  destruct (inv_config _ _ _ Hinv) as (_ & _ & _ & _ & Hv).
  destruct (discovers_facts _ _ _ Hw) as (_ & Hvc & _).
  cbn. by rewrite Hv, Hvc.
Qed.



(** *** Failures of single files *)

Lemma collect_nil t i fe rest :
  collector t = CLoop i fe -> results t = None :: rest ->
  (i < length (walkFiles (globals t)))%nat ->
  exists t', collect t = Some t' /\ ctxDone t' = ctxDone t
             /\ collector t' = CLoop (S i) fe /\ globals t' = globals t.
Proof.
  intros Hc Hr Hi. unfold collect. rewrite Hc, Hr.
  destruct (Nat.ltb_spec i (length (walkFiles (globals t)))); [|lia].
  eexists. by repeat split.
Qed.

(** C5 (as amended): when the file a worker holds cannot be opened or
    read, the worker's step logs one error record for the path, leaves the
    index as it is (the path is in no group), counts the file in
    [fileCount] and in its processed files, leaves its error statistic
    unchanged, and goes on to send nil: the context is not cancelled, the
    queue and the other goroutines are untouched, and the collecting loop
    takes the nil as one more result. *)
Theorem C5_failed_file_logged_pool_continues fl calls g s w wk p f :
  discovers fl calls g -> reachable g s ->
  workers s !! w = Some wk -> pc wk = WProcessing p f ->
  (forall bytes, fileData p <> Data bytes) ->
  exists s' m,
    exec (AWorkerRun w) s = Some s'
    /\ (m = "Failed to open file" \/ m = "Failed to calculate hash")
    /\ logs (globals s')
       = logs (globals s)
           ++ [{| level := ErrorLevel; msg := m; subject := p |}]
    /\ duplicates (globals s') = duplicates (globals s)
    /\ (forall h, p ∉ duplicates (globals s') !!! h)
    /\ fileCount (globals s') = wrap64 (fileCount (globals s) + 1)
    /\ workers s' !! w
       = Some {| pc := WSend None false;
                 stats :=
                   {| processedFiles := wrap64 (processedFiles (stats wk) + 1);
                      totalBytes := wrap64 (totalBytes (stats wk) + Size f);
                      errors := errors (stats wk) |} |}
    /\ ctxDone s' = ctxDone s /\ panicked s' = false
    /\ jobs s' = jobs s /\ dispatcher s' = dispatcher s
    /\ collector s' = collector s
    /\ (forall t i fe rest,
           collector t = CLoop i fe -> results t = None :: rest ->
           (i < length (walkFiles (globals t)))%nat ->
           exists t', collect t = Some t' /\ ctxDone t' = ctxDone t
                      /\ collector t' = CLoop (S i) fe
                      /\ globals t' = globals t).
Proof.
  intros Hdisc Hreach Hw Hpc Hfail.
  destruct (reachable_PoolInv _ _ _ _ Hdisc Hreach) as (done & Hinv).
  destruct (discovers_facts _ _ _ Hdisc)
    as (_ & _ & _ & _ & _ & _ & _ & _ & Hvalid).
  assert (admitsb (globals s) f = true) as Ha.
  { rewrite (admitsb_config _ _ _ (inv_config _ _ _ Hinv)).
    rewrite Forall_forall in Hvalid.
    destruct (Hvalid (mkItem p f)) as (p' & f' & [= <- <-] & Ha); [|done].
    rewrite <- (inv_items _ _ _ Hinv), !elem_of_app. right. left.
    eapply inflight_holding; [done|]. unfold holding. rewrite Hpc. by left. }
  assert (forall h, p ∉ duplicates (globals s) !!! h) as Hout.
  { intros h Hp.
    apply (PoolInv_member _ _ _ _ _ Hinv), hashedPairs_elem in Hp
      as (bytes & Hb & _).
    by apply (Hfail bytes). }
  unfold exec, worker_run.
  rewrite (inv_alive _ _ _ Hinv), Hw, Hpc, (scan_admitted _ _ _ Ha).
  assert (w < length (workers s))%nat as Hlt by by eapply lookup_lt_Some.
  destruct (fileData p) as [e|e|bytes] eqn:Hdata; [| |by destruct (Hfail bytes)].
  - eexists _, "Failed to open file". split; [done|].
    cbn -[lookup]. rewrite list_lookup_insert_eq by done.
    pose proof (inv_alive _ _ _ Hinv).
    repeat split; try done; [by left|apply collect_nil].
  - eexists _, "Failed to calculate hash". split; [done|].
    cbn -[lookup]. rewrite list_lookup_insert_eq by done.
    pose proof (inv_alive _ _ _ Hinv).
    repeat split; try done; [by right|apply collect_nil].
Qed.

End Proofs.

(** ** Further properties of the code *)

Ltac exec_cases Hex :=
  unfold exec, dispatch_send, dispatch_done, worker_recv, worker_done,
    worker_run, worker_send, collect in Hex;
  repeat match type of Hex with
         | Some _ = Some _ => injection Hex as <-
         | None = Some _ => discriminate
         | (let _ := _ in _) = _ => cbn zeta in Hex
         | match ?x with _ => _ end = _ => destruct x eqn:?
         | (if ?x then _ else _) = _ => destruct x eqn:?
         end.

Section Further.
Context {env : Env}.

(** *** The walk *)

(** X1: after the walk of [main], [walkFiles] lists in the order of the
    walk exactly the entries that pass the filter, all of them regular
    files larger than the minimum; every entry was counted once, filtered
    or not; the index, the file counter and the log are still empty. *)
Theorem X1_walk_collects_admitted_entries fl calls g :
  discovers fl calls g ->
  walkFiles g = picked g calls
  /\ Forall (fun item => exists p f,
                 item = mkItem p f /\ IsDir f = false /\ minSize g < Size f)
       (walkFiles g)
  /\ visitCount g = wrap64 (Z.of_nat (length calls))
  /\ (length (walkFiles g) + skipped g calls)%nat = length calls
  /\ duplicates g = ∅ /\ fileCount g = 0 /\ logs g = [].
Proof.
  intros Hdisc.
  destruct (discovers_facts _ _ _ Hdisc)
    as (Hwf & Hvc & Hfc & Hd & Hl & _ & _ & _ & Hvalid).
  repeat split; try done.
  - eapply Forall_impl; [exact Hvalid|].
    intros item (p & f & -> & Ha). exists p, f. split; [done|].
    split; [|by apply admitsb_size].
    unfold admitsb in Ha. by destruct (IsDir f).
  - rewrite Hwf. apply picked_skipped.
Qed.

Lemma visitFile_total p f err g :
  filenameMatch g = "*" \/ is_Some (filenameRegex g) ->
  exists g1, visitFile p (Some f) err g = Ok (None, g1)
             /\ filenameMatch g1 = filenameMatch g
             /\ filenameRegex g1 = filenameRegex g.
Proof.
  intros Hpat. unfold visitFile. cbn.
  destruct (IsDir f); cbn; [by eexists|].
  destruct (Size f >? minSize g); cbn; [|by eexists].
  destruct Hpat as [Hm | [re Hr]].
  - rewrite Hm. cbn. by eexists.
  - rewrite Hr. destruct (String.eqb _ _); cbn; [by eexists|].
    destruct (MatchString re (Name f)); by eexists.
Qed.

(** X2: when every entry comes with a [FileInfo] and the pattern is the
    literal [*] or compiled to a matcher, the walk runs through all the
    entries without a panic and returns nil. *)
Theorem X2_walk_completes calls : forall g,
  Forall (fun c => is_Some (we_info c)) calls ->
  filenameMatch g = "*" \/ is_Some (filenameRegex g) ->
  exists g', Walk calls g = Ok (None, g').
Proof.
  induction calls as [|c rest IH]; intros g Hinfo Hpat; cbn [Walk].
  - by eexists.
  - apply Forall_cons in Hinfo as [[f Hf] Hrest]. rewrite Hf.
    destruct (visitFile_total (we_path c) f (we_err c) g Hpat)
      as (g1 & -> & Hm & Hr).
    cbn. apply IH; [done|]. by rewrite Hm, Hr.
Qed.

(** X3: the two filters agree.  Whenever [visitFile] returns, either it
    appended the file and [scanAndHashFile] on the same file goes on to
    count it in [fileCount], or it appended nothing and [scanAndHashFile]
    returns at once with the variables unchanged. *)
Theorem X3_filters_agree p f err g e g1 :
  visitFile p (Some f) err g = Ok (e, g1) ->
  (walkFiles g1 = walkFiles g ++ [mkItem p f]
   /\ exists g2, scanAndHashFile p f g = Ok g2
                 /\ fileCount g2 = wrap64 (fileCount g + 1))
  \/ (walkFiles g1 = walkFiles g /\ scanAndHashFile p f g = Ok g).
Proof.
  unfold visitFile, scanAndHashFile. cbn.
  destruct (IsDir f); cbn; [intros [= <- <-]; by right|].
  destruct (Z.gtb_spec (Size f) (minSize g)) as [Hgt|Hle];
    destruct (Z.leb_spec (Size f) (minSize g)) as [Hle'|Hgt'];
    try lia; cbn; [|intros [= <- <-]; by right].
  destruct (String.eqb (filenameMatch g) "*"); cbn.
  - intros [= <- <-]. left. split; [done|].
    destruct (fileData p); by eexists.
  - destruct (filenameRegex g) as [re|]; cbn; [|done].
    destruct (MatchString re (Name f)); cbn; intros [= <- <-];
      [left|by right].
    split; [done|]. destruct (fileData p); by eexists.
Qed.

(** *** Steps of the pool, whatever the files *)

Lemma run_app sched1 : forall sched2 s,
  run (sched1 ++ sched2) s
  = match run sched1 s with
    | Some s1 => run sched2 s1
    | None => None
    end.
Proof.
  induction sched1 as [|a sched1 IH]; intros sched2 s; cbn; [done|].
  by destruct (exec a s).
Qed.

Lemma exec_first_error a s s' :
  exec a s = Some s' ->
  (forall e, firstErrOf (collector s) = Some e ->
             firstErrOf (collector s') = Some e)
  /\ (ctxDone s = true -> ctxDone s' = true)
  /\ ((is_Some (firstErrOf (collector s)) -> ctxDone s = true) ->
      is_Some (firstErrOf (collector s')) -> ctxDone s' = true).
Proof.
  intros Hex. exec_cases Hex; cbn;
    repeat match goal with
           | H : collector _ = _ |- _ => rewrite H
           end; cbn; repeat split; try done;
    try (intros ? [? [=]]; done); try (intros ? [=]; done); auto.
Qed.

(** X4: the first error wins and cancellation is for good.  Along any
    schedule an error held by the collecting loop is never replaced and a
    context that is done stays done; and when the loop holds an error
    only with the context done at the start of the schedule, it holds an
    error only with the context done at its end. *)
Theorem X4_first_error_wins sched : forall s s',
  run sched s = Some s' ->
  (forall e, firstErrOf (collector s) = Some e ->
             firstErrOf (collector s') = Some e)
  /\ (ctxDone s = true -> ctxDone s' = true)
  /\ ((is_Some (firstErrOf (collector s)) -> ctxDone s = true) ->
      is_Some (firstErrOf (collector s')) -> ctxDone s' = true).
Proof.
  induction sched as [|a sched IH]; intros s s'; cbn.
  - intros [= <-]. by repeat split.
  - destruct (exec a s) as [s1|] eqn:Hex; [|done]. intros Hrun.
    destruct (exec_first_error _ _ _ Hex) as (H1 & H2 & H3).
    destruct (IH _ _ Hrun) as (I1 & I2 & I3).
    repeat split; auto.
Qed.

Lemma scan_index_prefix p f g g' h :
  scanAndHashFile p f g = Ok g' ->
  duplicates g !!! h `prefix_of` duplicates g' !!! h.
Proof.
  unfold scanAndHashFile.
  destruct (IsDir f); cbn; [by intros [= <-]|].
  destruct (Size f <=? minSize g); cbn; [by intros [= <-]|].
  assert (match fileData p with
          | OpenError _ =>
            Ok (logError "Failed to open file" p
                  (set_fileCount (wrap64 (fileCount g + 1)) g))
          | ReadError _ =>
            Ok (logError "Failed to calculate hash" p
                  (set_fileCount (wrap64 (fileCount g + 1)) g))
          | Data bytes =>
            Ok (set_duplicates (appendPath (md5hex bytes) p (duplicates g))
                  (set_fileCount (wrap64 (fileCount g + 1)) g))
          end = Ok g' ->
          duplicates g !!! h `prefix_of` duplicates g' !!! h) as Hgo.
  { destruct (fileData p) as [| |bytes]; intros [= <-]; cbn; try done.
    rewrite appendPath_lookup. case_decide as Hh; [|done].
    subst. by apply prefix_app_r. }
  destruct (negb (String.eqb (filenameMatch g) "*")); cbn; [|done].
  destruct (filenameRegex g) as [re|]; cbn; [|done].
  destruct (MatchString re (Name f)); cbn; [done|by intros [= <-]].
Qed.

Lemma exec_index_prefix a s s' h :
  exec a s = Some s' ->
  duplicates (globals s) !!! h `prefix_of` duplicates (globals s') !!! h.
Proof.
  intros Hex. exec_cases Hex; cbn; try done.
  match goal with
  | H : scanAndHashFile _ _ _ = Ok _ |- _ => exact (scan_index_prefix _ _ _ _ h H)
  end.
Qed.

(** X5: the index only grows.  Along any schedule the group of every
    digest keeps the paths it has, in the same order, and new paths come
    after them; no path is ever taken out or moved. *)
Theorem X5_index_only_grows sched : forall s s' h,
  run sched s = Some s' ->
  duplicates (globals s) !!! h `prefix_of` duplicates (globals s') !!! h.
Proof.
  induction sched as [|a sched IH]; intros s s' h; cbn.
  - by intros [= <-].
  - destruct (exec a s) as [s1|] eqn:Hex; [|done]. intros Hrun.
    etrans; [exact (exec_index_prefix _ _ _ h Hex)|by apply IH].
Qed.

Lemma exec_capacity a s s' :
  exec a s = Some s' -> capacity s' = capacity s.
Proof. intros Hex. by exec_cases Hex. Qed.

Lemma run_capacity sched : forall s s',
  run sched s = Some s' -> capacity s' = capacity s.
Proof.
  induction sched as [|a sched IH]; intros s s'; cbn.
  - by intros [= <-].
  - destruct (exec a s) as [s1|] eqn:Hex; [|done]. intros Hrun.
    by rewrite (IH _ _ Hrun), (exec_capacity _ _ _ Hex).
Qed.

(** *** The pool on the files of a walk *)

Lemma exec_Quiet g0 done a s s' :
  Forall (validItem g0) (walkFiles g0) ->
  PoolInv g0 done s -> Quiet s -> exec a s = Some s' -> Quiet s'.
Proof.
  intros Hvalid Hinv (Hfe & Herr & Hphase) Hex.
  assert (forall item, item ∈ jobs s -> validItem g0 item) as Hin.
  { intros item Hi. eapply Forall_forall; [exact Hvalid|].
    rewrite <- (inv_items _ _ _ Hinv), !elem_of_app. tauto. }
  revert Hex. unfold exec. rewrite (inv_alive _ _ _ Hinv).
  destruct a as [| |w|w|w|w|].
  - unfold dispatch_send.
    destruct (dispatcher s) as [[|item rest]|]; [| |done].
    + by intros [= <-].
    + destruct (hasRoom _ _); [|done]. by intros [= <-].
  - unfold dispatch_done.
    destruct (dispatcher s) as [[|item rest]|]; try done.
    destruct (ctxDone s) eqn:Hctx; [|done]. intros [= <-].
    unfold Quiet. cbn. repeat split; try done.
    destruct (collector s); [by destruct Hphase|done].
  - unfold worker_recv.
    destruct (workers s !! w) as [wk|] eqn:Hw; [|done].
    pose proof (Forall_lookup_1 _ _ _ _ Herr Hw) as Hwk.
    destruct (pc wk) eqn:Hpc; try done.
    destruct (jobs s) as [|item rest] eqn:Hj.
    + destruct (jobsClosed s); [|done]. intros [= <-].
      unfold Quiet. cbn. split; [done|]. split; [by apply Forall_insert|].
      destruct (collector s); [|done].
      destruct Hphase as (? & ? & Hsend). repeat split; try done.
      apply Forall_insert; [done|]. by intros r ex [= <- <-].
    + destruct (Hin item) as (p & f & -> & _); [by left|].
      cbn. intros [= <-].
      unfold Quiet. cbn. split; [done|]. split; [by apply Forall_insert|].
      destruct (collector s); [|done].
      destruct Hphase as (? & ? & Hsend). repeat split; try done.
      by apply Forall_insert.
  - unfold worker_done.
    destruct (workers s !! w) as [wk|] eqn:Hw; [|done].
    pose proof (Forall_lookup_1 _ _ _ _ Herr Hw) as Hwk.
    destruct (pc wk); try done.
    destruct (ctxDone s) eqn:Hctx; [|done]. intros [= <-].
    unfold Quiet. cbn. split; [done|]. split; [by apply Forall_insert|].
    destruct (collector s); [|done]. by destruct Hphase as ([=] & _).
  - unfold worker_run.
    destruct (workers s !! w) as [wk|] eqn:Hw; [|done].
    pose proof (Forall_lookup_1 _ _ _ _ Herr Hw) as Hwk.
    destruct (pc wk) as [|p f| |]; try done.
    destruct (scanAndHashFile p f (globals s)) as [g1|]; intros [= <-].
    + unfold Quiet. cbn. split; [done|]. split; [by apply Forall_insert|].
      destruct (collector s); [|done].
      destruct Hphase as (? & ? & Hsend). repeat split; try done.
      apply Forall_insert; [done|]. by intros r ex [= <- <-].
    + unfold Quiet. by cbn.
  - unfold worker_send.
    destruct (workers s !! w) as [wk|] eqn:Hw; [|done].
    pose proof (Forall_lookup_1 _ _ _ _ Herr Hw) as Hwk.
    destruct (pc wk) as [| |r ex|] eqn:Hpc; try done.
    destruct (hasRoom _ _); [|done]. intros [= <-].
    unfold Quiet. cbn. split; [done|]. split; [by apply Forall_insert|].
    destruct (collector s); [|done].
    destruct Hphase as (? & Hres & Hsend). repeat split; try done.
    + apply Forall_app. split; [done|]. constructor; [|done].
      exact (Forall_lookup_1 _ _ _ _ Hsend Hw r ex Hpc).
    + apply Forall_insert; [done|]. by destruct ex.
  - unfold collect.
    destruct (collector s) as [i fe|]; [|done]. cbn in Hfe. subst fe.
    destruct Hphase as (Hctx & Hres & Hsend).
    destruct (i <? _)%nat.
    + destruct (results s) as [|r rest]; [done|].
      apply Forall_cons in Hres as [-> Hres]. intros [= <-].
      unfold Quiet. by cbn.
    + intros [= <-]. unfold Quiet. by cbn.
Qed.

Lemma run_Quiet g0 sched : forall done s s',
  Forall (validItem g0) (walkFiles g0) ->
  PoolInv g0 done s -> Quiet s -> run sched s = Some s' -> Quiet s'.
Proof.
  induction sched as [|a sched IH]; intros done s s' Hvalid Hinv Hq; cbn.
  - by intros [= <-].
  - destruct (exec a s) as [s1|] eqn:Hex; [|done].
    pose proof (exec_PoolInv _ _ _ _ _ Hvalid Hinv Hex) as Hinv1.
    pose proof (exec_Quiet _ _ _ _ _ Hvalid Hinv Hq Hex) as Hq1.
    by apply (IH _ _ _ Hvalid Hinv1 Hq1).
Qed.

Lemma Quiet_start g s0 : computeHashes_start g = Ok s0 -> Quiet s0.
Proof.
  unfold computeHashes_start.
  destruct (visitCount g <? 0); [done|]. intros [= <-].
  unfold Quiet. cbn. repeat split; try done.
  - by apply Forall_replicate.
  - by apply Forall_replicate.
Qed.

(** X6: on the files of a walk, whatever the number of workers and the
    schedule, no error ever shows up in the pool: the collecting loop
    holds no error, so [computeHashes] can only return nil; the context
    is not cancelled before the loop returns; and no worker counts an
    error. *)
Theorem X6_pool_never_reports_an_error fl calls g s :
  discovers fl calls g -> reachable g s ->
  firstErrOf (collector s) = None
  /\ Forall (fun wk => errors (stats wk) = 0) (workers s)
  /\ (forall i e, collector s = CLoop i e -> ctxDone s = false)
  /\ panicked s = false.
Proof.
  intros Hdisc (s0 & sched & Hstart & Hrun).
  destruct (discovers_facts _ _ _ Hdisc)
    as (_ & _ & Hfc & Hd & Hl & _ & _ & _ & Hvalid).
  assert (PoolInv g [] s0) as Hinv0.
  { apply PoolInv_start; try done. by rewrite Hl. }
  destruct (run_Quiet g sched [] s0 s Hvalid Hinv0 (Quiet_start _ _ Hstart)
              Hrun) as (Hfe & Herr & Hphase).
  destruct (run_PoolInv g sched [] s0 s Hvalid Hinv0 Hrun) as (more & Hinv).
  repeat split; try done; [|exact (inv_alive _ _ _ Hinv)].
  intros i e Hc. rewrite Hc in Hphase. by destruct Hphase.
Qed.

(** X7: the queue of jobs is large enough for the whole walk.  For a walk
    of fewer than 2^63 entries, in every state the pool reaches, a sender
    that still has a file to send finds room in [jobs]: its send never
    waits. *)
Theorem X7_sender_never_waits fl calls g s item rest :
  discovers fl calls g -> Z.of_nat (length calls) < 2 ^ 63 ->
  reachable g s -> dispatcher s = DRange (item :: rest) ->
  exec ADispatch s
  = Some (set_jobs (jobs s ++ [item]) (set_dispatcher (DRange rest) s)).
Proof.
  intros Hdisc Hlen Hreach Hd.
  destruct (reachable_PoolInv _ _ _ _ Hdisc Hreach) as (done & Hinv).
  destruct Hreach as (s0 & sched & Hstart & Hrun).
  destruct (discovers_facts _ _ _ Hdisc) as (Hwf & Hvc & _).
  pose proof (PoolInv_lengths _ _ _ Hinv) as Hl.
  rewrite Hd, Hwf in Hl. cbn in Hl.
  pose proof (picked_skipped g calls) as Hps.
  assert (capacity s = Z.of_nat (length calls)) as Hcap.
  { rewrite (run_capacity _ _ _ Hrun).
    unfold computeHashes_start in Hstart.
    destruct (visitCount g <? 0); [done|]. injection Hstart as <-. cbn.
    rewrite Hvc. apply wrap64_small. lia. }
  unfold exec, dispatch_send. rewrite (inv_alive _ _ _ Hinv), Hd.
  unfold hasRoom. rewrite Hcap.
  destruct (Z.ltb_spec (Z.of_nat (length (jobs s))) (Z.of_nat (length calls)));
    [done|lia].
Qed.

(** *** A run with one worker, file after file *)

Lemma dispatch_all rest : forall s,
  dispatcher s = DRange rest -> panicked s = false ->
  Z.of_nat (length (jobs s) + length rest) <= capacity s ->
  exists s',
    run (replicate (S (length rest)) ADispatch) s = Some s'
    /\ dispatcher s' = DReturned [] /\ jobs s' = jobs s ++ rest
    /\ jobsClosed s' = true /\ globals s' = globals s
    /\ ctxDone s' = ctxDone s /\ capacity s' = capacity s
    /\ results s' = results s /\ workers s' = workers s
    /\ collector s' = collector s.
Proof.
  induction rest as [|item rest IH]; intros s Hd Hp Hcap.
  - cbn. unfold exec, dispatch_send. rewrite Hp, Hd.
    eexists. split; [done|]. cbn. by rewrite app_nil_r.
  - cbn -[exec]. unfold exec at 1, dispatch_send. rewrite Hp, Hd.
    unfold hasRoom.
    destruct (Z.ltb_spec (Z.of_nat (length (jobs s))) (capacity s)) as [_|Hge];
      [|cbn in Hcap; lia].
    destruct (IH (set_jobs (jobs s ++ [item]) (set_dispatcher (DRange rest) s)))
      as (s' & Hrun & H1 & H2 & H3 & H4 & H5 & H6 & H7 & H8 & H9);
      [done|done|cbn; rewrite length_app; cbn in *; lia|].
    exists s'. split; [exact Hrun|]. cbn in *.
    rewrite <- app_assoc in H2. by repeat split.
Qed.

Lemma one_round g0 done i p f rest s :
  Forall (validItem g0) (walkFiles g0) ->
  PoolInv g0 done s -> AtRest i (mkItem p f :: rest) s ->
  (i < length (walkFiles g0))%nat ->
  exists s', run (Mini.oneFile 0) s = Some s'
             /\ PoolInv g0 (done ++ [(p, f)]) s' /\ AtRest (S i) rest s'.
Proof.
  intros Hvalid Hinv ((wk & Hws & Hpc) & Hj & Hcl & Hres & Hd & Hctx & Hc
                      & Hcap) Hi.
  pose proof (inv_alive _ _ _ Hinv) as Hp.
  assert (admitsb (globals s) f = true) as Ha.
  { rewrite (admitsb_config _ _ _ (inv_config _ _ _ Hinv)).
    rewrite Forall_forall in Hvalid.
    destruct (Hvalid (mkItem p f)) as (p' & f' & [= <- <-] & Ha); [|done].
    rewrite <- (inv_items _ _ _ Hinv), Hj, !elem_of_app. right. right. left.
    by left. }
  (* the worker receives the file *)
  assert (exec (AWorkerRecv 0) s
          = Some (set_worker 0 {| pc := WProcessing p f; stats := stats wk |}
                    (set_jobs rest s))) as H1.
  { unfold exec, worker_recv. by rewrite Hp, Hws; cbn; rewrite Hpc, Hj. }
  pose proof (exec_PoolInv _ _ _ _ _ Hvalid Hinv H1) as Hinv1.
  cbn [processes] in Hinv1. rewrite app_nil_r in Hinv1.
  (* it processes the file *)
  set (s1 := set_worker 0 {| pc := WProcessing p f; stats := stats wk |}
               (set_jobs rest s)) in *.
  assert (exists s2, exec (AWorkerRun 0) s1 = Some s2
                     /\ workers s2
                        = [{| pc := WSend None false;
                              stats :=
                                {| processedFiles :=
                                     wrap64 (processedFiles (stats wk) + 1);
                                   totalBytes :=
                                     wrap64 (totalBytes (stats wk) + Size f);
                                   errors := errors (stats wk) |} |}]
                     /\ jobs s2 = rest /\ jobsClosed s2 = true
                     /\ results s2 = [] /\ dispatcher s2 = DReturned []
                     /\ ctxDone s2 = false /\ collector s2 = CLoop i None
                     /\ capacity s2 = capacity s)
    as (s2 & H2 & Hws2 & Hj2 & Hcl2 & Hres2 & Hd2 & Hctx2 & Hc2 & Hcap2).
  { unfold exec, worker_run. subst s1. cbn. rewrite Hp, Hws. cbn.
    rewrite (scan_admitted _ _ _ Ha). eexists. split; [done|]. cbn.
    by rewrite Hws. }
  pose proof (exec_PoolInv _ _ _ _ _ Hvalid Hinv1 H2) as Hinv2.
  assert (processes (AWorkerRun 0) s1 = [(p, f)]) as Hproc
    by (subst s1; cbn; by rewrite Hws).
  rewrite Hproc in Hinv2.
  (* it sends its result *)
  assert (exists s3, exec (AWorkerSend 0) s2 = Some s3
                     /\ (exists wk3, workers s3 = [wk3] /\ pc wk3 = WSelect)
                     /\ jobs s3 = rest /\ jobsClosed s3 = true
                     /\ results s3 = [None] /\ dispatcher s3 = DReturned []
                     /\ ctxDone s3 = false /\ collector s3 = CLoop i None
                     /\ capacity s3 = capacity s)
    as (s3 & H3 & Hws3 & Hj3 & Hcl3 & Hres3 & Hd3 & Hctx3 & Hc3 & Hcap3).
  { unfold exec, worker_send.
    rewrite (inv_alive _ _ _ Hinv2), Hws2. cbn. unfold hasRoom.
    rewrite Hres2, Hcap2. cbn in Hcap |- *.
    destruct (Z.ltb_spec (Z.of_nat 0) (capacity s)); [|lia].
    eexists. split; [done|]. cbn. rewrite Hws2. cbn.
    repeat split; try done. by eexists. }
  pose proof (exec_PoolInv _ _ _ _ _ Hvalid Hinv2 H3) as Hinv3.
  assert (processes (AWorkerSend 0) s2 = []) as Hproc3 by done.
  rewrite Hproc3, app_nil_r in Hinv3.
  (* the loop receives it *)
  assert (exists s4, exec ACollect s3 = Some s4
                     /\ workers s4 = workers s3
                     /\ jobs s4 = rest /\ jobsClosed s4 = true
                     /\ results s4 = [] /\ dispatcher s4 = DReturned []
                     /\ ctxDone s4 = false /\ collector s4 = CLoop (S i) None
                     /\ capacity s4 = capacity s)
    as (s4 & H4 & Hws4 & Hj4 & Hcl4 & Hres4 & Hd4 & Hctx4 & Hc4 & Hcap4).
  { unfold exec, collect. rewrite (inv_alive _ _ _ Hinv3), Hc3, Hres3.
    destruct (inv_config _ _ _ Hinv3) as (_ & _ & _ & -> & _).
    destruct (Nat.ltb_spec i (length (walkFiles g0))); [|lia].
    eexists. split; [done|]. by cbn. }
  pose proof (exec_PoolInv _ _ _ _ _ Hvalid Hinv3 H4) as Hinv4.
  assert (processes ACollect s3 = []) as Hproc4 by done.
  rewrite Hproc4, app_nil_r in Hinv4.
  exists s4. split.
  { unfold Mini.oneFile. cbn [run]. by rewrite H1, H2, H3, H4. }
  split; [done|]. unfold AtRest. rewrite Hws4.
  repeat split; try done. cbn in Hcap. lia.
Qed.

Lemma all_rounds g0 pfs : forall done i s,
  Forall (validItem g0) (walkFiles g0) ->
  PoolInv g0 done s -> AtRest i (uncurry mkItem <$> pfs) s ->
  (i + length pfs <= length (walkFiles g0))%nat ->
  exists s', run (mjoin (replicate (length pfs) (Mini.oneFile 0))) s = Some s'
             /\ PoolInv g0 (done ++ pfs) s'
             /\ AtRest (i + length pfs) [] s'.
Proof.
  induction pfs as [|[p f] pfs IH]; intros done i s Hvalid Hinv Hrest Hi.
  - exists s. rewrite app_nil_r. cbn [length]. rewrite Nat.add_0_r.
    split; [done|]. split; [done|exact Hrest].
  - cbn in Hrest, Hi.
    destruct (one_round g0 done i p f _ s Hvalid Hinv Hrest) as
      (s1 & Hrun1 & Hinv1 & Hrest1); [lia|].
    destruct (IH _ _ _ Hvalid Hinv1 Hrest1) as (s' & Hrun & Hinv' & Hrest');
      [lia|].
    exists s'. split; [|split].
    + cbn [length replicate mjoin list_join]. by rewrite run_app, Hrun1.
    + by rewrite <- app_assoc in Hinv'.
    + cbn [length]. by replace (i + S (length pfs))%nat
        with (S i + length pfs)%nat by lia.
Qed.

Lemma valid_items g0 items :
  Forall (validItem g0) items ->
  exists pfs, items = uncurry mkItem <$> pfs.
Proof.
  induction 1 as [|item items (p & f & -> & _) _ (pfs & ->)].
  - by exists [].
  - by exists ((p, f) :: pfs).
Qed.

Lemma one_worker_run fl calls g :
  discovers fl calls g -> numWorkers g = 1%nat ->
  Z.of_nat (length calls) < 2 ^ 63 ->
  exists s0 s,
    computeHashes_start g = Ok s0
    /\ run (Mini.inTurn (length (walkFiles g))) s0 = Some s
    /\ collector s = CReturned None /\ panicked s = false /\ drained s
    /\ (forall h,
           duplicates (globals s) !!! h
           = (filter (fun hp => hp.1 = h) (omap pairOf (walkFiles g))).*2)
    /\ fileCount (globals s) = Z.of_nat (length (walkFiles g)).
Proof.
  intros Hdisc Hone Hlen.
  destruct (discovers_facts _ _ _ Hdisc)
    as (Hwf & Hvc & Hfc & Hd & Hl & _ & _ & _ & Hvalid).
  pose proof (picked_skipped g calls) as Hps. rewrite <- Hwf in Hps.
  rewrite wrap64_small in Hvc by lia.
  destruct (computeHashes_start g) as [s0|] eqn:Hstart.
  2:{ unfold computeHashes_start in Hstart.
      destruct (Z.ltb_spec (visitCount g) 0); [lia|done]. }
  assert (PoolInv g [] s0) as Hinv0.
  { apply PoolInv_start; try done. by rewrite Hl. }
  unfold computeHashes_start in Hstart.
  destruct (visitCount g <? 0); [done|]. injection Hstart as Hs0.
  rewrite Hone in Hs0. cbn in Hs0.
  (* every file is sent *)
  destruct (dispatch_all (walkFiles g) s0)
    as (s1 & Hrun1 & Hd1 & Hj1 & Hcl1 & Hg1 & Hctx1 & Hcap1 & Hres1 & Hws1
        & Hc1); [by subst s0|by subst s0|subst s0; cbn; lia|].
  assert (PoolInv g [] s1) as Hinv1.
  { destruct Hinv0 as [Hitems ? ? ? ? ?].
    constructor; rewrite ?Hg1; try done.
    - rewrite Hws1, Hj1, Hd1. rewrite <- Hitems. subst s0. cbn.
      by rewrite !app_nil_r.
    - eapply run_PoolInv in Hrun1 as (more & Hinv1); [|done|].
      + exact (inv_alive _ _ _ Hinv1).
      + by constructor. }
  assert (AtRest 0 (walkFiles g) s1) as Hrest1.
  { unfold AtRest. rewrite Hws1, Hj1, Hres1, Hctx1, Hc1, Hcap1. subst s0. cbn.
    repeat split; try done; [by eexists|lia]. }
  (* the worker takes them one after the other *)
  destruct (valid_items _ _ Hvalid) as (pfs & Hpfs).
  assert (length (walkFiles g) = length pfs) as Hn
    by (by rewrite Hpfs, length_fmap).
  rewrite Hpfs in Hrest1.
  destruct (all_rounds g pfs [] 0 s1 Hvalid Hinv1 Hrest1)
    as (s2 & Hrun2 & Hinv2 & (Hws2 & Hj2 & Hcl2 & Hres2 & Hd2 & Hctx2 & Hc2
                              & Hcap2)); [lia|].
  cbn [app] in Hinv2. cbn [Nat.add] in Hc2.
  (* the loop returns *)
  assert (exec ACollect s2
          = Some (set_collector (CReturned None) (set_ctxDone true s2)))
    as Hex3.
  { unfold exec, collect. rewrite (inv_alive _ _ _ Hinv2), Hc2.
    destruct (inv_config _ _ _ Hinv2) as (_ & _ & _ & -> & _).
    destruct (Nat.ltb_spec (length pfs) (length (walkFiles g))); [lia|done]. }
  pose proof (exec_PoolInv _ _ _ _ _ Hvalid Hinv2 Hex3) as Hinv3.
  cbn [processes] in Hinv3. rewrite app_nil_r in Hinv3.
  eexists _, _. split; [reflexivity|]. split.
  { unfold Mini.inTurn. rewrite run_app, Hrun1, run_app, Hn, Hrun2.
    cbn [run]. by rewrite Hex3. }
  split; [done|]. split; [exact (inv_alive _ _ _ Hinv3)|].
  split; [|split].
  - destruct Hws2 as (wk & Hws2 & Hpc2).
    unfold drained. cbn. rewrite Hd2, Hj2, Hws2. unfold inflight, holding.
    cbn. by rewrite Hpc2.
  - intros h. rewrite (inv_index _ _ _ Hinv3), buildIndex_group.
    by rewrite hashedPairs_items, <- Hpfs.
  - rewrite (inv_fileCount _ _ _ Hinv3), <- Hn. apply wrap64_small. lia.
Qed.

(** X8: a run with one worker always comes to its end.  For a walk of
    fewer than 2^63 entries the schedule that sends every file and then
    lets the worker take them one after the other brings [computeHashes]
    to its return with no error, nothing left to process, every admitted
    file counted, and in each group the paths of the files with that
    digest in the order of the walk. *)
Theorem X8_one_worker_run_completes fl calls g :
  discovers fl calls g -> numWorkers g = 1%nat ->
  Z.of_nat (length calls) < 2 ^ 63 ->
  exists s0 s,
    computeHashes_start g = Ok s0
    /\ run (Mini.inTurn (length (walkFiles g))) s0 = Some s
    /\ collector s = CReturned None /\ panicked s = false /\ drained s
    /\ (forall h,
           duplicates (globals s) !!! h
           = (filter (fun hp => hp.1 = h) (omap pairOf (walkFiles g))).*2)
    /\ fileCount (globals s) = Z.of_nat (length (walkFiles g)).
Proof. apply one_worker_run. Qed.

(** *** The count of duplicate groups *)

Lemma countLoop_value groups : forall n,
  wrap64 n = n ->
  countLoop n groups
  = wrap64 (n + Z.of_nat
                  (length (filter (fun kv => (1 < length kv.2)%nat) groups))).
Proof.
  unfold countLoop.
  induction groups as [|kv groups IH]; intros n Hn; cbn [foldl].
  - cbn. by rewrite Z.add_0_r.
  - rewrite filter_cons.
    destruct (Nat.ltb_spec 1 (length kv.2)) as [Hlt|Hge].
    + rewrite decide_True by done. rewrite IH by apply wrap64_idem.
      rewrite wrap64_succ. f_equal. cbn [length]. lia.
    + rewrite decide_False by lia. by apply IH.
Qed.

Lemma countFold_value groups n :
  wrap64 n = n ->
  foldr (uncurry (fun (_ : string) (v : list string) n =>
                    if (1 <? length v)%nat then wrap64 (n + 1) else n))
    n groups
  = wrap64 (n + Z.of_nat
                  (length (filter (fun kv => (1 < length kv.2)%nat) groups))).
Proof.
  intros Hn. induction groups as [|[k v] groups IH]; cbn [foldr].
  - cbn. by rewrite Z.add_0_r.
  - rewrite filter_cons, IH. cbn [uncurry snd].
    destruct (Nat.ltb_spec 1 (length v)) as [Hlt|Hge].
    + rewrite decide_True by done. rewrite wrap64_succ. f_equal.
      cbn [length]. lia.
    + by rewrite decide_False by lia.
Qed.

(** X9: the count of duplicates is the number of groups with two paths or
    more, not the number of redundant files, and it does not depend on the
    order in which the map is ranged over. *)
Theorem X9_dupCount_counts_groups g groups :
  wrap64 (dupCount g) = dupCount g ->
  groups ≡ₚ map_to_list (duplicates g) ->
  countLoop (dupCount g) groups = dupCount (countDuplicates g)
  /\ dupCount (countDuplicates g)
     = wrap64 (dupCount g
               + Z.of_nat (length (filter (fun kv => (1 < length kv.2)%nat)
                                     (map_to_list (duplicates g))))).
Proof.
  intros Hn Hperm.
  assert (dupCount (countDuplicates g)
          = wrap64 (dupCount g
                    + Z.of_nat (length (filter (fun kv => (1 < length kv.2)%nat)
                                          (map_to_list (duplicates g))))))
    as Hfold.
  { unfold countDuplicates. cbn. rewrite map_fold_foldr.
    by apply countFold_value. }
  split; [|done]. rewrite Hfold, countLoop_value by done.
  by rewrite Hperm.
Qed.

(** *** The report and the [-delete] pass *)

Lemma removed_app evs1 evs2 :
  removed (evs1 ++ evs2) = removed evs1 ++ removed evs2.
Proof. apply omap_app. Qed.

Lemma removed_deleteFile fails p : removed (deleteFile fails p) = [p].
Proof. unfold deleteFile. cbn. by destruct (fails p). Qed.

Lemma removed_reportFiles del fails v : forall i,
  removed (reportFiles del fails (S i) v) = if del then v else [].
Proof.
  induction v as [|f v IH]; intros i; cbn [reportFiles].
  - by destruct del.
  - rewrite removed_app, IH.
    destruct del; cbn [Nat.ltb Nat.leb andb];
      [by rewrite removed_deleteFile|done].
Qed.

Lemma removed_reportGroup del fails v :
  removed (reportGroup del fails v) = if del then tail v else [].
Proof.
  unfold reportGroup. destruct v as [|f [|f' v]]; cbn [length Nat.ltb Nat.leb].
  - by destruct del.
  - by destruct del.
  - cbn [reportFiles]. rewrite !removed_app, removed_reportFiles.
    destruct del; cbn [Nat.ltb Nat.leb andb]; rewrite ?removed_deleteFile;
      cbn; by rewrite ?app_nil_r.
Qed.

Lemma removed_reportGroups del fails groups :
  removed (reportGroups del fails groups)
  = if del then groups ≫= (fun kv => tail kv.2) else [].
Proof.
  unfold reportGroups. induction groups as [|kv groups IH].
  - by destruct del.
  - rewrite bind_cons, removed_app, removed_reportGroup, IH.
    destruct del; [by rewrite bind_cons|done].
Qed.

(** X10: what the last pass removes.  Without [-delete] nothing is handed
    to [os.Remove]; with it, the pass removes of every group the paths
    after the first one, in order, and nothing else, whether or not a
    removal fails; a group of a single path gives no output at all. *)
Theorem X10_delete_pass_keeps_first fails groups :
  removed (reportGroups false fails groups) = []
  /\ removed (reportGroups true fails groups)
     = groups ≫= (fun kv => tail kv.2)
  /\ (forall del p, reportGroup del fails [p] = []).
Proof. by rewrite !removed_reportGroups. Qed.

Lemma tails_in_groups (groups : list (string * list string)) p :
  p ∈ groups ≫= (fun kv => tail kv.2) -> p ∈ groups ≫= snd.
Proof.
  rewrite !list_elem_of_bind. intros (kv & Hp & Hkv).
  exists kv. split; [|done]. destruct (kv.2); [done|]. by right.
Qed.

Lemma tails_NoDup (groups : list (string * list string)) :
  NoDup (groups ≫= snd) ->
  NoDup (groups ≫= (fun kv => tail kv.2))
  /\ (forall h q rest, (h, q :: rest) ∈ groups ->
                       q ∉ groups ≫= (fun kv => tail kv.2)).
Proof.
  induction groups as [|[h v] groups IH]; [by split; [constructor|intros ??? ?%elem_of_nil]|].
  rewrite !bind_cons. cbn [snd]. intros (Hv & Hdisj & Hrest)%NoDup_app.
  destruct (IH Hrest) as (IH1 & IH2). split.
  - apply NoDup_app. split; [|split; [|done]].
    + destruct v; [done|]. by apply NoDup_cons in Hv as [_ ?].
    + intros x Hx Hx'. apply (Hdisj x); [|by apply tails_in_groups].
      destruct v; [done|]. by right.
  - intros h' q rest [[= -> <-]|Hin]%elem_of_cons Hq;
      apply elem_of_app in Hq as [Hq|Hq].
    + apply NoDup_cons in Hv as [Hv _]. done.
    + apply (Hdisj q); [by left|by apply tails_in_groups].
    + apply (Hdisj q); [destruct v; [done|by right]|].
      apply list_elem_of_bind. exists (h', q :: rest). split; [by left|done].
    + by apply (IH2 h' q rest).
Qed.

Lemma tails_length (groups : list (string * list string)) :
  Forall (fun kv => kv.2 <> []) groups ->
  (length (groups ≫= (fun kv => tail kv.2)) + length groups)%nat
  = length (groups ≫= snd).
Proof.
  induction 1 as [|[h v] groups Hne _ IH]; [done|].
  rewrite !bind_cons, !length_app. cbn [length snd] in *.
  destruct v; [done|]. cbn. lia.
Qed.

Lemma buildIndex_nonempty pairs h v :
  buildIndex pairs !! h = Some v -> v <> [].
Proof.
  revert v. induction pairs as [|[h' p] pairs IH] using rev_ind; intros v.
  - unfold buildIndex. cbn. by rewrite lookup_empty.
  - rewrite buildIndex_snoc. unfold appendPath.
    destruct (decide (h' = h)) as [->|Hne].
    + rewrite lookup_insert_eq. intros [= <-]. by destruct (_ !!! _).
    + rewrite lookup_insert_ne by done. apply IH.
Qed.

(** X11: the [-delete] pass never removes every copy.  For a walk that
    reports each path once, in whatever state the pool has reached and in
    whatever order the groups are ranged over: no path is removed twice;
    the first path of every group is not removed; and every removed path
    is in a group whose first path is kept and whose content has the same
    digest.  The number of removals is the number of indexed paths minus
    the number of groups. *)
Theorem X11_delete_never_removes_every_copy fl calls g s fails groups :
  discovers fl calls g -> NoDup (we_path <$> calls) -> reachable g s ->
  groups ≡ₚ map_to_list (duplicates (globals s)) ->
  NoDup (removed (reportGroups true fails groups))
  /\ (forall h v,
         duplicates (globals s) !! h = Some v ->
         exists q rest, v = q :: rest
                        /\ (q ∉ removed (reportGroups true fails groups)))
  /\ (forall p,
         p ∈ removed (reportGroups true fails groups) ->
         exists h q b b',
           p ∈ duplicates (globals s) !!! h
           /\ head (duplicates (globals s) !!! h) = Some q
           /\ (q ∉ removed (reportGroups true fails groups))
           /\ fileData p = Data b /\ fileData q = Data b'
           /\ md5hex b = h /\ md5hex b' = h)
  /\ (length (removed (reportGroups true fails groups))
      + size (duplicates (globals s)))%nat
     = indexed (duplicates (globals s)).
Proof.
  intros Hdisc Hnd Hreach Hperm. rewrite removed_reportGroups.
  destruct (reachable_PoolInv _ _ _ _ Hdisc Hreach) as (done & Hinv).
  destruct (discovers_facts _ _ _ Hdisc) as (Hwf & _).
  assert (NoDup (hashedPairs done).*2) as Hpairs.
  { eapply PoolInv_NoDup; [done|]. rewrite Hwf.
    exact (sublist_NoDup _ _ Hnd (picked_paths g calls)). }
  assert (groups ≫= snd ≡ₚ allPaths (duplicates (globals s))) as Hall
    by (unfold allPaths; by rewrite Hperm).
  assert (NoDup (groups ≫= snd)) as Hnd'.
  { by rewrite Hall, (inv_index _ _ _ Hinv), allPaths_buildIndex. }
  destruct (tails_NoDup groups Hnd') as (Hgone & Hheads).
  assert (forall h v, (h, v) ∈ groups <-> duplicates (globals s) !! h = Some v)
    as Hgroups.
  { intros h v. by rewrite Hperm, elem_of_map_to_list. }
  assert (forall h v, duplicates (globals s) !! h = Some v -> v <> [])
    as Hne.
  { intros h v. rewrite (inv_index _ _ _ Hinv). apply buildIndex_nonempty. }
  assert (forall h p, p ∈ duplicates (globals s) !!! h ->
                      exists b, fileData p = Data b /\ md5hex b = h) as Hown.
  { intros h p Hp.
    apply (PoolInv_member _ _ _ _ _ Hinv), hashedPairs_elem in Hp
      as (b & Hb & ->). eauto. }
  split; [done|]. split; [|split].
  - intros h v Hv. pose proof (Hne _ _ Hv) as Hv'.
    destruct v as [|q rest]; [done|]. exists q, rest. split; [done|].
    apply (Hheads h q rest). by apply Hgroups.
  - intros p ([h v] & Hp & Hin)%list_elem_of_bind. cbn in Hp.
    destruct v as [|q rest]; [by apply elem_of_nil in Hp|]. cbn in Hp.
    pose proof (proj1 (Hgroups _ _) Hin) as Hv.
    assert (duplicates (globals s) !!! h = q :: rest) as Htot
      by (by rewrite lookup_total_alt, Hv).
    destruct (Hown h p) as (b & Hb & Hbh); [rewrite Htot; by right|].
    destruct (Hown h q) as (b' & Hb' & Hbh'); [rewrite Htot; by left|].
    exists h, q, b, b'. rewrite Htot. repeat split; try done.
    + by right.
    + by apply (Hheads h q rest).
  - rewrite <- length_map_to_list, <- Hperm, (tails_length groups).
    + unfold indexed. by rewrite <- Hall.
    + apply Forall_forall. intros [h v] Hin. cbn.
      exact (Hne _ _ (proj1 (Hgroups _ _) Hin)).
Qed.

(** *** Drained states and whole runs *)

Lemma drained_counts g done s :
  PoolInv g done s -> drained s -> length done = length (walkFiles g).
Proof.
  intros Hinv (Hu & Hj & Hi).
  pose proof (PoolInv_lengths _ _ _ Hinv) as Hl.
  rewrite Hu, Hj, Hi in Hl. cbn in Hl. lia.
Qed.

(** X12: in a drained state, whatever the number of workers and the
    schedule, the index is determined by the walk up to the order inside
    a group: the group of a digest holds exactly the admitted files whose
    content has that digest, each once; the file counter is the number of
    admitted files, and each of them is either indexed or logged as
    failed. *)
Theorem X12_drained_index_is_the_walk fl calls g s :
  discovers fl calls g -> reachable g s -> drained s ->
  (forall h,
      duplicates (globals s) !!! h
      ≡ₚ (filter (fun hp => hp.1 = h) (omap pairOf (walkFiles g))).*2)
  /\ fileCount (globals s) = wrap64 (Z.of_nat (length (walkFiles g)))
  /\ (indexed (duplicates (globals s)) + scanErrors (logs (globals s)))%nat
     = length (walkFiles g).
Proof.
  intros Hdisc Hreach Hdr.
  destruct (reachable_PoolInv _ _ _ _ Hdisc Hreach) as (done & Hinv).
  pose proof (drained_counts _ _ _ Hinv Hdr) as Hn.
  split; [|split].
  - intros h. by apply (drained_group g done).
  - by rewrite (inv_fileCount _ _ _ Hinv), Hn.
  - rewrite (inv_index _ _ _ Hinv), indexed_buildIndex,
      (inv_errors _ _ _ Hinv), <- Hn.
    apply outcomes_length.
Qed.

Lemma same_filter_same_files fl1 fl2 calls g1 g2 :
  size_flag fl1 = size_flag fl2 -> name_flag fl1 = name_flag fl2 ->
  discovers fl1 calls g1 -> discovers fl2 calls g2 ->
  walkFiles g1 = walkFiles g2.
Proof.
  intros Hsz Hnm Hd1 Hd2.
  destruct (discovers_facts _ _ _ Hd1) as (-> & _ & _ & _ & _ & Hm1 & Hs1 & _).
  destruct (discovers_facts _ _ _ Hd2) as (-> & _ & _ & _ & _ & Hm2 & Hs2 & _).
  unfold picked, admitsb.
  by rewrite Hm1, Hm2, Hs1, Hs2, (discovers_regex _ _ _ Hd1),
    (discovers_regex _ _ _ Hd2), Hsz, Hnm.
Qed.

(** X13: two runs over the same walk with the same size and name filter,
    with any numbers of workers and any schedules, agree once both are
    drained: every group holds the same paths up to their order, and the
    file counter, the number of indexed paths and the number of logged
    failures are the same. *)
Theorem X13_drained_runs_agree fl1 fl2 calls g1 g2 s1 s2 :
  size_flag fl1 = size_flag fl2 -> name_flag fl1 = name_flag fl2 ->
  discovers fl1 calls g1 -> discovers fl2 calls g2 ->
  reachable g1 s1 -> reachable g2 s2 -> drained s1 -> drained s2 ->
  (forall h, duplicates (globals s1) !!! h ≡ₚ duplicates (globals s2) !!! h)
  /\ fileCount (globals s1) = fileCount (globals s2)
  /\ indexed (duplicates (globals s1)) = indexed (duplicates (globals s2))
  /\ scanErrors (logs (globals s1)) = scanErrors (logs (globals s2)).
Proof.
  intros Hsz Hnm Hd1 Hd2 Hr1 Hr2 Hdr1 Hdr2.
  pose proof (same_filter_same_files _ _ _ _ _ Hsz Hnm Hd1 Hd2) as Hwf.
  destruct (reachable_PoolInv _ _ _ _ Hd1 Hr1) as (done1 & Hinv1).
  destruct (reachable_PoolInv _ _ _ _ Hd2 Hr2) as (done2 & Hinv2).
  pose proof (drained_counts _ _ _ Hinv1 Hdr1) as Hn1.
  pose proof (drained_counts _ _ _ Hinv2 Hdr2) as Hn2.
  assert (hashedPairs done1 ≡ₚ hashedPairs done2) as Hpairs.
  { destruct Hdr1 as (Hu1 & Hj1 & Hi1). destruct Hdr2 as (Hu2 & Hj2 & Hi2).
    pose proof (inv_items _ _ _ Hinv1) as Hit1.
    pose proof (inv_items _ _ _ Hinv2) as Hit2.
    rewrite Hu1, Hj1, Hi1, !app_nil_r in Hit1.
    rewrite Hu2, Hj2, Hi2, !app_nil_r in Hit2.
    by rewrite !hashedPairs_items, Hit1, Hit2, Hwf. }
  pose proof (outcomes_length done1) as Ho1.
  pose proof (outcomes_length done2) as Ho2.
  pose proof (Permutation_length Hpairs) as Hlp.
  split; [|split; [|split]].
  - intros h.
    by rewrite (inv_index _ _ _ Hinv1), (inv_index _ _ _ Hinv2),
      !buildIndex_group, Hpairs.
  - rewrite (inv_fileCount _ _ _ Hinv1), (inv_fileCount _ _ _ Hinv2).
    by rewrite Hn1, Hn2, Hwf.
  - by rewrite (inv_index _ _ _ Hinv1), (inv_index _ _ _ Hinv2),
      !indexed_buildIndex.
  - rewrite (inv_errors _ _ _ Hinv1), (inv_errors _ _ _ Hinv2).
    rewrite Hwf in Hn1. lia.
Qed.

(** X14: with one worker, the collecting loop returns only once every
    admitted file has been processed, and it returns nil. *)
Theorem X14_one_worker_waits_for_every_file fl calls g s fe :
  discovers fl calls g -> numWorkers g = 1%nat -> reachable g s ->
  collector s = CReturned fe ->
  drained s /\ fe = None
  /\ fileCount (globals s) = wrap64 (Z.of_nat (length (walkFiles g))).
Proof.
  intros Hdisc Hone Hreach Hc.
  pose proof (one_worker_returns_drained _ _ _ _ _ Hdisc Hone Hreach Hc)
    as Hdr.
  destruct (reachable_PoolInv _ _ _ _ Hdisc Hreach) as (done & Hinv).
  split; [done|]. split.
  - destruct Hreach as (s0 & sched & Hstart & Hrun).
    destruct (discovers_facts _ _ _ Hdisc)
      as (_ & _ & Hfc & Hd & Hl & _ & _ & _ & Hvalid).
    assert (PoolInv g [] s0) as Hinv0.
    { apply PoolInv_start; try done. by rewrite Hl. }
    destruct (run_Quiet g sched [] s0 s Hvalid Hinv0 (Quiet_start _ _ Hstart)
                Hrun) as (Hfe & _).
    by rewrite Hc in Hfe.
  - by rewrite (inv_fileCount _ _ _ Hinv), (drained_counts _ _ _ Hinv Hdr).
Qed.

(** *** [main] as a whole *)

(** X15: the exit statuses of the program.  When [main] ends it is with
    status 0, with status -1, or in a panic (status 2 from the runtime);
    the status is -1 exactly when no path argument was given and [-h] was
    not; with [-h] the program exits with status 0 before anything is
    walked. *)
Theorem X15_exit_statuses fl sched o :
  main fl sched = Some o ->
  (exitStatus o = 0 \/ exitStatus o = -1 \/ exitStatus o = 2)
  /\ (exitStatus o = -1 <-> h_flag fl = false /\ args fl = [])
  /\ (h_flag fl = true -> o = Exited 0 (parsed fl)).
Proof.
  intros Hmain.
  destruct (h_flag fl) eqn:Hh.
  - unfold main in Hmain. rewrite Hh in Hmain. injection Hmain as <-.
    cbn. repeat split; try done; [by left|intros [? _]; done].
  - destruct (args fl) as [|root more] eqn:Hargs.
    + unfold main in Hmain. rewrite Hh, Hargs in Hmain.
      injection Hmain as <-. cbn. repeat split; try done. right. by left.
    + pose proof (main_after_args _ _ _ _ _ Hh Hargs Hmain) as Hend.
      destruct o as [status g1|why]; cbn.
      * destruct Hend as (-> & _).
        repeat split; try done; [by left|intros [_ ?]; done].
      * repeat split; try done; [by right; right|intros [_ ?]; done].
Qed.

(** X16: in single-thread mode the program ends with status 0 on every
    tree whose walk does not panic (fewer than 2^63 entries): under the
    schedule that takes the files one after the other [main] exits with
    status 0, every admitted file counted, and each group listing the
    paths of its digest in the order of the walk. *)
Theorem X16_single_thread_run_exits_zero fl root more g :
  h_flag fl = false -> args fl = root :: more ->
  singleThread_flag fl = true ->
  discovers fl (walkCalls root) g ->
  Z.of_nat (length (walkCalls root)) < 2 ^ 63 ->
  exists g',
    main fl (Mini.inTurn (length (walkFiles g))) = Some (Exited 0 g')
    /\ (forall h,
           duplicates g' !!! h
           = (filter (fun hp => hp.1 = h) (omap pairOf (walkFiles g))).*2)
    /\ fileCount g' = Z.of_nat (length (walkFiles g))
    /\ visitCount g' = Z.of_nat (length (walkCalls root)).
Proof.
  intros Hh Hargs Hsingle Hdisc Hlen.
  destruct (discovers_facts _ _ _ Hdisc)
    as (_ & Hvc & _ & _ & _ & _ & _ & Hst & _).
  destruct (one_worker_run fl (walkCalls root) g Hdisc)
    as (s0 & s & Hstart & Hrun & Hc & Hp & Hdr & Hidx & Hfc); [|done|].
  { unfold numWorkers. by rewrite Hst, Hsingle. }
  exists (countDuplicates (globals s)). split; [|split; [|split]].
  - unfold main. rewrite Hh, Hargs. unfold discovers in Hdisc.
    rewrite Hdisc. cbv beta iota zeta. by rewrite Hstart, Hrun, Hp, Hc.
  - done.
  - done.
  - destruct (reachable_PoolInv fl (walkCalls root) g s Hdisc) as (done & Hinv).
    { by exists s0, (Mini.inTurn (length (walkFiles g))). }
    destruct (inv_config _ _ _ Hinv) as (_ & _ & _ & _ & Hv).
    cbn. rewrite Hv, Hvc. apply wrap64_small. lia.
Qed.

(** *** How far the collecting loop can run ahead *)

Lemma sum_list_insert (f : Worker -> nat) ws : forall w wk x,
  ws !! w = Some wk ->
  (sum_list (f <$> <[w := x]> ws) + f wk = sum_list (f <$> ws) + f x)%nat.
Proof.
  induction ws as [|a ws IH]; intros [|w] wk x Hw; try done.
  - injection Hw as ->. cbn. lia.
  - cbn in Hw. specialize (IH w wk x Hw).
    change (f a + sum_list (f <$> <[w := x]> ws) + f wk
            = f a + sum_list (f <$> ws) + f x)%nat.
    lia.
Qed.

Lemma inflight_insert_length ws w wk x :
  ws !! w = Some wk ->
  (length (holding wk) + length (inflight (<[w := x]> ws))
   = length (holding x) + length (inflight ws))%nat.
Proof.
  intros Hw. rewrite <- !length_app. apply Permutation_length.
  by apply inflight_insert.
Qed.

Lemma exits_inflight_bound ws :
  (exits ws + length (inflight ws) <= length ws)%nat.
Proof.
  unfold exits, inflight, holding.
  induction ws as [|wk ws IH]; cbn; [done|].
  rewrite length_app. destruct (pc wk) as [| |r [|]|]; cbn; lia.
Qed.

Lemma exec_ManyInv g0 done a s s' :
  Forall (validItem g0) (walkFiles g0) ->
  PoolInv g0 done s -> Quiet s -> ManyInv done s -> exec a s = Some s' ->
  ManyInv (done ++ processes a s) s'.
Proof.
  intros Hvalid Hinv (_ & _ & Hquiet) Hmany.
  pose proof (PoolInv_lengths _ _ _ Hinv) as Hlen.
  assert (forall item, item ∈ jobs s -> validItem g0 item) as Hin.
  { intros item Hi. eapply Forall_forall; [exact Hvalid|].
    rewrite <- (inv_items _ _ _ Hinv), !elem_of_app. tauto. }
  unfold ManyInv in *. unfold exec. rewrite (inv_alive _ _ _ Hinv).
  destruct (collector s) as [i fe|fe] eqn:Hc.
  - destruct Hquiet as (Hctx & Hres & Hsend).
    destruct Hmany as (Hcount & Hclosed & Hexit).
    destruct a as [| |w|w|w|w|]; cbn [processes].
    + unfold dispatch_send.
      destruct (dispatcher s) as [[|item rest]|] eqn:Hd; [| |done].
      * intros [= <-]. cbn. rewrite Hc, app_nil_r.
        split; [done|]. split; [done|]. intros He. by destruct (Hexit He).
      * destruct (hasRoom _ _); [|done]. intros [= <-].
        cbn. rewrite Hc, app_nil_r. split; [done|]. split.
        -- intros Hcl. by specialize (Hclosed Hcl).
        -- intros He. by destruct (Hexit He).
    + unfold dispatch_done.
      destruct (dispatcher s) as [[|item rest]|]; try done.
      by rewrite Hctx.
    + unfold worker_recv.
      destruct (workers s !! w) as [wk|] eqn:Hw; [|done].
      destruct (pc wk) eqn:Hpc; try done.
      destruct (jobs s) as [|item rest] eqn:Hj.
      * destruct (jobsClosed s) eqn:Hcl; [|done]. intros [= <-].
        pose proof (sum_list_insert (fun wk => pendingSend (pc wk)) _ w wk
                      {| pc := WSend None true; stats := stats wk |} Hw) as HP.
        pose proof (sum_list_insert (fun wk => exitSent (pc wk)) _ w wk
                      {| pc := WSend None true; stats := stats wk |} Hw) as HE.
        cbn in HP, HE. rewrite Hpc in HP, HE. cbn in HP, HE.
        cbn. rewrite Hc, app_nil_r. unfold pendingSends, exits in *.
        split; [lia|]. split; [auto|]. intros _. split; [done|auto].
      * destruct (Hin item) as (p & f & -> & _); [by left|].
        cbn. intros [= <-].
        pose proof (sum_list_insert (fun wk => pendingSend (pc wk)) _ w wk
                      {| pc := WProcessing p f; stats := stats wk |} Hw) as HP.
        pose proof (sum_list_insert (fun wk => exitSent (pc wk)) _ w wk
                      {| pc := WProcessing p f; stats := stats wk |} Hw) as HE.
        cbn in HP, HE. rewrite Hpc in HP, HE. cbn in HP, HE.
        cbn. rewrite Hc, app_nil_r. unfold pendingSends, exits in *.
        split; [lia|]. split; [done|]. intros He.
        assert (0 < sum_list ((fun wk => exitSent (pc wk)) <$> workers s))%nat
          as He' by lia.
        by destruct (Hexit He').
    + unfold worker_done.
      destruct (workers s !! w) as [wk|]; [|done].
      destruct (pc wk); try done. by rewrite Hctx.
    + unfold worker_run.
      destruct (workers s !! w) as [wk|] eqn:Hw; [|done].
      destruct (pc wk) as [|p f| |] eqn:Hpc; try done.
      destruct (scanAndHashFile p f (globals s)) as [g1|] eqn:Hscan;
        intros [= <-].
      * pose proof (sum_list_insert (fun wk => pendingSend (pc wk)) _ w wk
                      {| pc := WSend None false;
                         stats :=
                           {| processedFiles :=
                                wrap64 (processedFiles (stats wk) + 1);
                              totalBytes :=
                                wrap64 (totalBytes (stats wk) + Size f);
                              errors := errors (stats wk) |} |} Hw) as HP.
        pose proof (sum_list_insert (fun wk => exitSent (pc wk)) _ w wk
                      {| pc := WSend None false;
                         stats :=
                           {| processedFiles :=
                                wrap64 (processedFiles (stats wk) + 1);
                              totalBytes :=
                                wrap64 (totalBytes (stats wk) + Size f);
                              errors := errors (stats wk) |} |} Hw) as HE.
        cbn in HP, HE. rewrite Hpc in HP, HE. cbn in HP, HE.
        cbn. rewrite Hc, length_app. cbn [length].
        unfold pendingSends, exits in *.
        split; [lia|]. split; [done|]. intros He. apply Hexit. lia.
      * pose proof (exec_PoolInv g0 done (AWorkerRun w) s
                      (set_panicked true s) Hvalid Hinv) as Hbad.
        unfold exec, worker_run in Hbad.
        rewrite (inv_alive _ _ _ Hinv), Hw, Hpc, Hscan in Hbad.
        by pose proof (inv_alive _ _ _ (Hbad eq_refl)).
    + unfold worker_send.
      destruct (workers s !! w) as [wk|] eqn:Hw; [|done].
      destruct (pc wk) as [| |r ex|] eqn:Hpc; try done.
      destruct (hasRoom _ _); [|done]. intros [= <-].
      pose proof (sum_list_insert (fun wk => pendingSend (pc wk)) _ w wk
                    {| pc := if ex then WDone else WSelect;
                       stats := stats wk |} Hw) as HP.
      pose proof (sum_list_insert (fun wk => exitSent (pc wk)) _ w wk
                    {| pc := if ex then WDone else WSelect;
                       stats := stats wk |} Hw) as HE.
      cbn in HP, HE. rewrite Hpc in HP, HE.
      cbn. rewrite Hc, app_nil_r, length_app. cbn [length].
      unfold pendingSends, exits in *.
      destruct ex; cbn in HP, HE; (split; [lia|]); (split; [done|]);
        intros He; apply Hexit; lia.
    + unfold collect. rewrite Hc.
      destruct (Nat.ltb_spec i (length (walkFiles (globals s)))) as [Hi|Hi].
      * destruct (results s) as [|r rest] eqn:Hr; [done|].
        apply Forall_cons in Hres as [-> Hres]. intros [= <-].
        cbn -[pendingSends exits]. rewrite app_nil_r.
        cbn [length] in Hcount. split; [lia|done].
      * intros [= <-]. cbn -[pendingSends exits inflight].
        destruct (inv_config _ _ _ Hinv) as (_ & _ & _ & Hwf & _).
        rewrite Hwf in Hi.
        pose proof (exits_inflight_bound (workers s)) as Hb.
        destruct (exits (workers s)) as [|e] eqn:He.
        -- assert (length (inflight (workers s)) = 0
                   /\ length (jobs s) = 0
                   /\ length (unsent (dispatcher s)) = 0)%nat
             as (HI & HJ & HU) by lia.
           apply length_zero_iff_nil in HJ, HU. rewrite HI. split; [done|].
           split; [done|lia].
        -- destruct Hexit as (Hj & Hd); [lia|]. rewrite Hj, Hd in *.
           cbn in *. split; [done|]. split; [done|lia].
  - (* the loop has returned *)
    destruct Hmany as (Hj & Hu & Hhalf).
    intros Hex.
    assert (exec a s = Some s') as Hex'
      by (unfold exec; by rewrite (inv_alive _ _ _ Hinv)).
    rewrite (exec_returned _ _ _ _ Hex' Hc).
    pose proof (exec_workers_length _ _ _ Hex') as Hn.
    revert Hex. destruct a as [| |w|w|w|w|].
    + unfold dispatch_send.
      destruct (dispatcher s) as [[|item rest]|]; [|done|done].
      by intros [= <-].
    + unfold dispatch_done. by destruct (dispatcher s) as [[|item rest]|].
    + unfold worker_recv.
      destruct (workers s !! w) as [wk|] eqn:Hw; [|done].
      destruct (pc wk) eqn:Hpc; try done. rewrite Hj.
      destruct (jobsClosed s); [|done]. intros [= <-].
      pose proof (inflight_insert_length _ w wk
                    {| pc := WSend None true; stats := stats wk |} Hw) as HI.
      unfold holding in HI at 1 2. rewrite Hpc in HI. cbn -[inflight Nat.mul] in HI |- *.
      split; [done|]. split; [done|]. cbn in Hn. lia.
    + unfold worker_done.
      destruct (workers s !! w) as [wk|] eqn:Hw; [|done].
      destruct (pc wk) eqn:Hpc; try done.
      destruct (ctxDone s); [|done]. intros [= <-].
      pose proof (inflight_insert_length _ w wk
                    {| pc := WSend (Some "context canceled") true;
                       stats := stats wk |} Hw) as HI.
      unfold holding in HI at 1 2. rewrite Hpc in HI. cbn -[inflight Nat.mul] in HI |- *.
      split; [done|]. split; [done|]. cbn in Hn. lia.
    + unfold worker_run.
      destruct (workers s !! w) as [wk|] eqn:Hw; [|done].
      destruct (pc wk) as [|p f| |] eqn:Hpc; try done.
      destruct (scanAndHashFile p f (globals s)) as [g1|]; intros [= <-].
      * pose proof (inflight_insert_length _ w wk
                      {| pc := WSend None false;
                         stats :=
                           {| processedFiles :=
                                wrap64 (processedFiles (stats wk) + 1);
                              totalBytes :=
                                wrap64 (totalBytes (stats wk) + Size f);
                              errors := errors (stats wk) |} |} Hw) as HI.
        unfold holding in HI at 1 2. rewrite Hpc in HI. cbn -[inflight Nat.mul] in HI |- *.
        split; [done|]. split; [done|]. cbn in Hn. lia.
      * cbn -[inflight Nat.mul]. done.
    + unfold worker_send.
      destruct (workers s !! w) as [wk|] eqn:Hw; [|done].
      destruct (pc wk) as [| |r ex|] eqn:Hpc; try done.
      destruct (hasRoom _ _); [|done]. intros [= <-].
      pose proof (inflight_insert_length _ w wk
                    {| pc := if ex then WDone else WSelect;
                       stats := stats wk |} Hw) as HI.
      unfold holding in HI at 1 2. rewrite Hpc in HI.
      cbn -[inflight Nat.mul] in HI |- *. cbn in Hn.
      split; [done|]. split; [done|]. destruct ex; cbn -[inflight] in HI; lia.
    + unfold collect. by rewrite Hc.
Qed.

Lemma run_ManyInv g0 sched : forall done s s',
  Forall (validItem g0) (walkFiles g0) ->
  PoolInv g0 done s -> Quiet s -> ManyInv done s -> run sched s = Some s' ->
  exists more, PoolInv g0 (done ++ more) s' /\ ManyInv (done ++ more) s'.
Proof.
  induction sched as [|a sched IH]; intros done s s' Hvalid Hinv Hq Hmany; cbn.
  - intros [= <-]. exists []. by rewrite app_nil_r.
  - destruct (exec a s) as [s1|] eqn:Hex; [|done].
    pose proof (exec_PoolInv _ _ _ _ _ Hvalid Hinv Hex) as Hinv1.
    pose proof (exec_Quiet _ _ _ _ _ Hvalid Hinv Hq Hex) as Hq1.
    pose proof (exec_ManyInv _ _ _ _ _ Hvalid Hinv Hq Hmany Hex) as Hmany1.
    intros Hrun.
    destruct (IH _ _ _ Hvalid Hinv1 Hq1 Hmany1 Hrun) as (more & Hi & Hm).
    exists (processes a s ++ more). by rewrite app_assoc.
Qed.

Lemma ManyInv_start g s0 : computeHashes_start g = Ok s0 -> ManyInv [] s0.
Proof.
  unfold computeHashes_start.
  destruct (visitCount g <? 0); [done|]. intros [= <-].
  unfold ManyInv, pendingSends, exits. cbn.
  assert (forall (f : Worker -> nat) n wk,
             f wk = 0%nat -> sum_list (f <$> replicate n wk) = 0%nat) as Hz.
  { intros f n wk Hf. induction n as [|n IH]; [done|]. cbn. by rewrite Hf. }
  rewrite !Hz by done. repeat split; try done; lia.
Qed.

Lemma run_workers_length sched : forall s s',
  run sched s = Some s' -> length (workers s') = length (workers s).
Proof.
  induction sched as [|a sched IH]; intros s s'; cbn.
  - by intros [= <-].
  - destruct (exec a s) as [s1|] eqn:Hex; [|done]. intros Hrun.
    by rewrite (IH _ _ Hrun), (exec_workers_length _ _ _ Hex).
Qed.

(** X17: how far the collecting loop can run ahead of the workers.  On
    the files of a walk, with any number of workers and any schedule,
    when [computeHashes] has returned no file is left unsent or in the
    queue, and the files still in the hands of a worker are at most half
    as many as the workers; every admitted file is indexed, logged as
    failed, or in the hands of a worker. *)
Theorem X17_return_leaves_at_most_half_the_workers_busy fl calls g s fe :
  discovers fl calls g -> reachable g s -> collector s = CReturned fe ->
  jobs s = [] /\ unsent (dispatcher s) = []
  /\ length (workers s) = numWorkers g
  /\ (2 * length (inflight (workers s)) <= numWorkers g)%nat
  /\ (indexed (duplicates (globals s)) + scanErrors (logs (globals s))
      + length (inflight (workers s)))%nat = length (walkFiles g).
Proof.
  intros Hdisc (s0 & sched & Hstart & Hrun) Hc.
  destruct (discovers_facts _ _ _ Hdisc)
    as (_ & _ & Hfc & Hd & Hl & _ & _ & _ & Hvalid).
  assert (PoolInv g [] s0) as Hinv0.
  { apply PoolInv_start; try done. by rewrite Hl. }
  destruct (run_ManyInv g sched [] s0 s Hvalid Hinv0 (Quiet_start _ _ Hstart)
              (ManyInv_start _ _ Hstart) Hrun) as (done & Hinv & Hmany).
  cbn [app] in Hinv, Hmany. unfold ManyInv in Hmany. rewrite Hc in Hmany.
  destruct Hmany as (Hj & Hu & Hhalf).
  assert (length (workers s) = numWorkers g) as Hn.
  { rewrite (run_workers_length _ _ _ Hrun).
    unfold computeHashes_start in Hstart.
    destruct (visitCount g <? 0); [done|]. injection Hstart as <-.
    cbn. by rewrite length_replicate. }
  pose proof (PoolInv_lengths _ _ _ Hinv) as Hlen.
  rewrite Hj, Hu in Hlen. cbn [length] in Hlen.
  pose proof (outcomes_length done) as Hout.
  rewrite <- Hn.
  repeat split; try done.
  rewrite (inv_index _ _ _ Hinv), indexed_buildIndex, (inv_errors _ _ _ Hinv).
  lia.
Qed.

End Further.

(** ** The program on concrete trees *)

#[local] Existing Instance Mini.world.

(** C1: with two workers and one file, the collecting loop of
    [computeHashes] returns while worker 0 still holds the file,
    unprocessed: the single result the loop received is the report worker 1
    sent on finding the queue closed, not the completion of the file. *)
Theorem C1_collect_returns_with_file_in_flight :
  exists g s0 s,
    discovers (Mini.flags "*" 1 false "/one") (Mini.tree "/one") g
    /\ computeHashes_start g = Ok s0
    /\ length (workers s0) = 2%nat
    /\ run Mini.race s0 = Some s
    /\ collector s = CReturned None
    /\ inflight (workers s) = [mkItem "/one/f" (Mini.fileInfo "f" 5)]
    /\ duplicates (globals s) = ∅
    /\ fileCount (globals s) = 0.
Proof.
  eexists _, _, _.
  split; [evaluate|]. split; [evaluate|]. split; [evaluate|].
  split; [evaluate|]. repeat split.
Qed.

(** C4: on the tree with the single file [/one/f], the run with one worker
    ends with the file in the index, and a run with two workers ends with
    an empty index: the two pool sizes do not produce the same content. *)
Theorem C4_pool_sizes_disagree :
  exists g1 g2,
    main (Mini.flags "*" 1 true "/one") (Mini.inTurn 1) = Some (Exited 0 g1)
    /\ main (Mini.flags "*" 1 false "/one") Mini.race = Some (Exited 0 g2)
    /\ allPaths (duplicates g1) = ["/one/f"]
    /\ allPaths (duplicates g2) = []
    /\ duplicates g1 <> duplicates g2.
Proof.
  eexists _, _.
  split; [evaluate|]. split; [evaluate|]. split; [evaluate|].
  split; [evaluate|]. intros Heq. apply (f_equal allPaths) in Heq.
  vm_compute in Heq. discriminate.
Qed.

(** C6: an entry whose [lstat] failed reaches [visitFile] with a nil
    [FileInfo]; the walk panics there and the entries after it are never
    visited, whatever the schedule.  An entry reported with an error and a
    non-nil [FileInfo] is counted like any other and nothing is logged. *)
Theorem C6_walk_error_entry :
  Walk (Mini.tree "/gone") (compileName (parsed (Mini.flags "*" 1 true "/gone")))
  = Panic "nil pointer dereference"
  /\ (forall sched,
         main (Mini.flags "*" 1 true "/gone") sched
         = Some (Panicked "nil pointer dereference"))
  /\ exists g,
       Walk (Mini.tree "/p") (compileName (parsed (Mini.flags "*" 1 true "/p")))
       = Ok (None, g)
       /\ visitCount g = 3 /\ logs g = []
       /\ walkFiles g = [mkItem "/p/z.txt" (Mini.fileInfo "z.txt" 5)].
Proof.
  split; [evaluate|]. split; [intros sched; evaluate|].
  eexists. split; [evaluate|]. repeat split.
Qed.

(** C7: with the invalid pattern [(] and an empty directory the program
    walks the tree and exits with status 0, no error logged; with a root
    that does not exist it panics in the walk, whatever the schedule. *)
Theorem C7_invalid_pattern_exits_zero :
  (exists e, Compile "(" = inr e)
  /\ (exists g,
         main (Mini.flags "(" 1 true "/empty") [ACollect] = Some (Exited 0 g)
         /\ visitCount g = 1 /\ filenameRegex g = None
         /\ List.filter (fun e => match level e with
                                  | ErrorLevel => true
                                  | InfoLevel => false
                                  end) (logs g) = [])
  /\ (forall sched,
         main (Mini.flags "*" 1 true "/missing") sched
         = Some (Panicked "nil pointer dereference")).
Proof.
  split; [eexists; evaluate|]. split.
  - eexists. split; [evaluate|]. repeat split.
  - intros sched. evaluate.
Qed.

(** C3: the counters at the end of a run with two workers.  On the tree
    [/one] the program exits with status 0 having visited two entries,
    with one entry filtered out, no file indexed and no failure logged:
    2 is not 0 + 1 + 0.  On the tree [/d] it exits with status 0 having
    visited six entries, with two filtered out, two files indexed and one
    failure logged: 6 is not 2 + 2 + 1.  In both runs [computeHashes] has
    returned on a worker's exit report while a file that passed the
    filter is still in the hands of a worker: that file is neither in
    the index nor in the log. *)
Theorem C3_counters_disagree_at_early_return :
  (exists g0 s0 s g,
      discovers Runs.flOne2 (Mini.tree "/one") g0
      /\ computeHashes_start g0 = Ok s0
      /\ run Mini.race s0 = Some s
      /\ collector s = CReturned None
      /\ main Runs.flOne2 Mini.race = Some (Exited 0 g)
      /\ g = countDuplicates (globals s)
      /\ walkFiles g = [mkItem "/one/f" (Mini.fileInfo "f" 5)]
      /\ inflight (workers s) = [mkItem "/one/f" (Mini.fileInfo "f" 5)]
      /\ visitCount g = 2
      /\ indexed (duplicates g) = 0%nat
      /\ skipped g (Mini.tree "/one") = 1%nat
      /\ scanErrors (logs g) = 0%nat
      /\ visitCount g
         <> Z.of_nat (indexed (duplicates g) + skipped g (Mini.tree "/one")
                      + scanErrors (logs g)))
  /\ (exists g0 s0 s g,
         discovers Runs.flD2 (Mini.tree "/d") g0
         /\ computeHashes_start g0 = Ok s0
         /\ run Runs.overtaken s0 = Some s
         /\ collector s = CReturned None
         /\ main Runs.flD2 Runs.overtaken = Some (Exited 0 g)
         /\ g = countDuplicates (globals s)
         /\ mkItem "/d/b.txt" (Mini.fileInfo "b.txt" 5) ∈ walkFiles g
         /\ inflight (workers s) = [mkItem "/d/b.txt" (Mini.fileInfo "b.txt" 5)]
         /\ visitCount g = 6
         /\ allPaths (duplicates g) = ["/d/c.txt"; "/d/a.txt"]
         /\ indexed (duplicates g) = 2%nat
         /\ skipped g (Mini.tree "/d") = 2%nat
         /\ subject <$> List.filter isScanError (logs g) = ["/d/locked"]
         /\ scanErrors (logs g) = 1%nat
         /\ visitCount g
            <> Z.of_nat (indexed (duplicates g) + skipped g (Mini.tree "/d")
                         + scanErrors (logs g))).
Proof.
  split.
  - eexists _, _, _, _.
    split; [evaluate|]. split; [evaluate|]. split; [evaluate|].
    split; [evaluate|]. split; [evaluate|].
    repeat split; vm_compute; discriminate.
  - eexists _, _, _, _.
    split; [evaluate|]. split; [evaluate|]. split; [evaluate|].
    split; [evaluate|]. split; [evaluate|]. split; [evaluate|].
    split; [vm_compute; repeat constructor|].
    repeat split; vm_compute; discriminate.
Qed.

(** C5, on the error counter: the worker that holds
    [/d/locked], which cannot be opened, ends its step with its error
    statistic still at 0. *)
Lemma C5_counterexample : ~ countsFailures.
Proof.
  intros Hcounts.
  assert (exists s0 s s',
             Mini.started (Mini.flags "*" 1 true "/d") "/d" = Some s0
             /\ run Mini.holdingFourth s0 = Some s
             /\ workers s !! 0%nat
                = Some {| pc := WProcessing "/d/locked"
                                  (Mini.fileInfo "locked" 9);
                          stats := {| processedFiles := 3; totalBytes := 15;
                                      errors := 0 |} |}
             /\ admitsb (globals s) (Mini.fileInfo "locked" 9) = true
             /\ exec (AWorkerRun 0) s = Some s'
             /\ workers s' !! 0%nat
                = Some {| pc := WSend None false;
                          stats := {| processedFiles := 4; totalBytes := 24;
                                      errors := 0 |} |})
    as (s0 & s & s' & _ & _ & Hw & Ha & Hex & Hw').
  { eexists _, _, _. split; [evaluate|]. split; [evaluate|].
    split; [evaluate|]. split; [evaluate|]. split; evaluate. }
  pose proof (Hcounts s s' 0%nat _ _ "/d/locked" _ Hw eq_refl Ha
                (fun bytes => ltac:(discriminate)) Hex Hw') as Herrors.
  vm_compute in Herrors. discriminate.
Qed.

(** *** The theorems at concrete trees *)

Lemma found_discovers fl root :
  Mini.walked fl root = Some (Mini.found fl root) ->
  discovers fl (Mini.tree root) (Mini.found fl root).
Proof.
  unfold Mini.walked, discovers. intros Hw.
  destruct (Walk _ _) as [[e g]|] eqn:HW; [|done].
  apply Walk_Ok in HW as Hnil; [|done]. destruct Hnil as (-> & _).
  by injection Hw as ->.
Qed.

Lemma after_reachable fl root sched :
  Mini.started fl root = Some (Mini.initial fl root) ->
  run sched (Mini.initial fl root) = Some (Mini.after fl root sched) ->
  reachable (Mini.found fl root) (Mini.after fl root sched).
Proof.
  unfold Mini.started. intros Hs Hr.
  exists (Mini.initial fl root), sched. split; [|done].
  unfold Mini.found.
  destruct (Mini.walked fl root) as [g|]; [|done]. cbn.
  by destruct (computeHashes_start g) as [s0|]; [injection Hs as ->|].
Qed.

(** On [/d], run to the end with one worker, [a.txt] and [b.txt] hold the
    same bytes and are in the same group. *)
Lemma C2_witness :
  let fl := Mini.flags "*" 1 true "/d" in
  let s := Mini.after fl "/d" (Mini.inTurn 4) in
  discovers fl (Mini.tree "/d") (Mini.found fl "/d")
  /\ reachable (Mini.found fl "/d") s
  /\ fileData "/d/a.txt" = Data (list_byte_of_string "hello")
  /\ fileData "/d/b.txt" = Data (list_byte_of_string "hello")
  /\ "/d/a.txt" ∈ duplicates (globals s) !!! "hello"
  /\ "/d/b.txt" ∈ duplicates (globals s) !!! "hello"
  /\ (forall h1 h2,
         "/d/a.txt" ∈ duplicates (globals s) !!! h1 ->
         "/d/b.txt" ∈ duplicates (globals s) !!! h2 -> h1 = h2).
Proof.
  intros fl s.
  assert (discovers fl (Mini.tree "/d") (Mini.found fl "/d")) as Hd
    by (apply found_discovers; evaluate).
  assert (reachable (Mini.found fl "/d") s) as Hr
    by (apply after_reachable; evaluate).
  split; [exact Hd|]. split; [exact Hr|].
  split; [reflexivity|]. split; [reflexivity|].
  split; [vm_compute; repeat constructor|].
  split; [vm_compute; repeat constructor|].
  intros h1 h2 H1 H2.
  destruct (C2_fingerprint_groups fl (Mini.tree "/d") _ s
              "/d/a.txt" "/d/b.txt" _ _ Hd Hr eq_refl eq_refl) as [H _].
  destruct (H h1 h2 H1 H2) as (_ & _ & Hsame & _). by apply Hsame.
Defined.

(** On [/d], run to the end with one worker: 6 = 3 + 2 + 1 and the
    program's count of files is 4 = 3 + 1. *)
Lemma counters_when_drained_on_d :
  let fl := Mini.flags "*" 1 true "/d" in
  let g := Mini.found fl "/d" in
  let s := Mini.after fl "/d" (Mini.inTurn 4) in
  discovers fl (Mini.tree "/d") g
  /\ Z.of_nat (length (Mini.tree "/d")) < 2 ^ 63
  /\ reachable g s /\ drained s
  /\ visitCount (globals s) = 6
  /\ visitCount (globals s)
     = Z.of_nat (indexed (duplicates (globals s)) + skipped g (Mini.tree "/d")
                 + scanErrors (logs (globals s)))
  /\ fileCount (globals s)
     = Z.of_nat (indexed (duplicates (globals s))
                 + scanErrors (logs (globals s))).
Proof.
  intros fl g s.
  assert (discovers fl (Mini.tree "/d") g) as Hd
    by (apply found_discovers; evaluate).
  assert (reachable g s) as Hr by (apply after_reachable; evaluate).
  assert (Z.of_nat (length (Mini.tree "/d")) < 2 ^ 63) as Hlen by reflexivity.
  assert (drained s) as Hdr by (repeat split; evaluate).
  split; [exact Hd|]. split; [exact Hlen|]. split; [exact Hr|].
  split; [exact Hdr|]. split; [evaluate|].
  exact (counters_when_drained fl (Mini.tree "/d") g s Hd Hlen Hr Hdr).
Qed.

(** On [/d], the worker that holds [/d/locked], which cannot be opened. *)
Lemma C5_witness :
  let fl := Mini.flags "*" 1 true "/d" in
  let g := Mini.found fl "/d" in
  let s := Mini.after fl "/d" Mini.holdingFourth in
  let wk := {| pc := WProcessing "/d/locked" (Mini.fileInfo "locked" 9);
               stats := {| processedFiles := 3; totalBytes := 15;
                           errors := 0 |} |} in
  discovers fl (Mini.tree "/d") g
  /\ reachable g s
  /\ workers s !! 0%nat = Some wk
  /\ (forall bytes, fileData "/d/locked" <> Data bytes)
  /\ exists s',
       exec (AWorkerRun 0) s = Some s'
       /\ scanErrors (logs (globals s')) = S (scanErrors (logs (globals s)))
       /\ duplicates (globals s') = duplicates (globals s)
       /\ ctxDone s' = ctxDone s.
Proof.
  intros fl g s wk.
  assert (discovers fl (Mini.tree "/d") g) as Hd
    by (apply found_discovers; evaluate).
  assert (reachable g s) as Hr by (apply after_reachable; evaluate).
  assert (workers s !! 0%nat = Some wk) as Hw by evaluate.
  assert (forall bytes, fileData "/d/locked" <> Data bytes) as Hfail
    by (intros bytes; discriminate).
  split; [exact Hd|]. split; [exact Hr|]. split; [exact Hw|].
  split; [exact Hfail|].
  destruct (C5_failed_file_logged_pool_continues
              fl (Mini.tree "/d") g s 0%nat wk "/d/locked"
              (Mini.fileInfo "locked" 9) Hd Hr Hw eq_refl Hfail)
    as (s' & m & Hex & Hm & Hlogs & Hdup & _ & _ & _ & Hctx & _).
  exists s'. split; [exact Hex|]. split; [|split; [exact Hdup|exact Hctx]].
  rewrite Hlogs, scanErrors_snoc.
  generalize (scanErrors (logs (globals s))). intros n.
  destruct Hm as [-> | ->]; cbn; lia.
Defined.

(** On [/d] the walk reports six different paths. *)
Lemma C8_witness :
  let fl := Mini.flags "*" 1 true "/d" in
  let g := Mini.found fl "/d" in
  let s := Mini.after fl "/d" (Mini.inTurn 4) in
  discovers fl (Mini.tree "/d") g
  /\ NoDup (we_path <$> Mini.tree "/d")
  /\ reachable g s
  /\ NoDup (allPaths (duplicates (globals s)))
  /\ length (allPaths (duplicates (globals s))) = 3%nat.
Proof.
  intros fl g s.
  assert (discovers fl (Mini.tree "/d") g) as Hd
    by (apply found_discovers; evaluate).
  assert (reachable g s) as Hr by (apply after_reachable; evaluate).
  assert (NoDup (we_path <$> Mini.tree "/d")) as Hnd.
  { refine (bool_decide_unpack _ _). vm_compute. exact I. }
  split; [exact Hd|]. split; [exact Hnd|]. split; [exact Hr|].
  split; [|evaluate].
  exact (proj1 (C8_path_at_most_once fl (Mini.tree "/d") g s Hd Hnd Hr)).
Defined.

(** [/d/tiny] has one byte and the minimum is one byte. *)
Lemma C9_witness :
  let g := compileName (parsed (Mini.flags "*" 1 true "/d")) in
  Size (Mini.fileInfo "tiny" 1) = minSize g
  /\ visitFile "/d/tiny" (Some (Mini.fileInfo "tiny" 1)) None g
     = Ok (None, set_visitCount 1 g)
  /\ scanAndHashFile "/d/tiny" (Mini.fileInfo "tiny" 1) g = Ok g.
Proof.
  intros g. split; [reflexivity|].
  destruct (C9_size_equal_to_minimum_filtered
              "/d/tiny" (Mini.fileInfo "tiny" 1) None g eq_refl)
    as (Hvisit & Hscan & _).
  split; [exact Hvisit|exact Hscan].
Defined.


(** *** The further properties at concrete trees *)

(** The walk of [/d]. *)
Lemma X1_witness :
  let g := Mini.found Runs.flD "/d" in
  discovers Runs.flD (Mini.tree "/d") g
  /\ length (walkFiles g) = 4%nat
  /\ (length (walkFiles g) + skipped g (Mini.tree "/d"))%nat
     = length (Mini.tree "/d").
Proof.
  intros g.
  assert (discovers Runs.flD (Mini.tree "/d") g) as Hd
    by (apply found_discovers; evaluate).
  split; [exact Hd|]. split; [evaluate|].
  destruct (X1_walk_collects_admitted_entries _ _ _ Hd)
    as (_ & _ & _ & Hsum & _).
  exact Hsum.
Defined.

(** Every entry of [/d] has a [FileInfo] and the pattern is [*]. *)
Lemma X2_witness :
  let g := compileName (parsed Runs.flD) in
  Forall (fun c => is_Some (we_info c)) (Mini.tree "/d")
  /\ (filenameMatch g = "*" \/ is_Some (filenameRegex g))
  /\ exists g', Walk (Mini.tree "/d") g = Ok (None, g').
Proof.
  intros g.
  assert (Forall (fun c => is_Some (we_info c)) (Mini.tree "/d")) as Hinfo
    by (repeat constructor; by eexists).
  assert (filenameMatch g = "*" \/ is_Some (filenameRegex g)) as Hpat
    by (by left).
  split; [exact Hinfo|]. split; [exact Hpat|].
  exact (X2_walk_completes _ g Hinfo Hpat).
Defined.

(** [visitFile] admits [/d/a.txt] and [scanAndHashFile] counts it. *)
Lemma X3_witness :
  let g := compileName (parsed Runs.flD) in
  let a := Mini.fileInfo "a.txt" 5 in
  exists g1,
    visitFile "/d/a.txt" (Some a) None g = Ok (None, g1)
    /\ exists g2, scanAndHashFile "/d/a.txt" a g = Ok g2
                  /\ fileCount g2 = 1.
Proof.
  intros g a.
  assert (exists g1, visitFile "/d/a.txt" (Some a) None g = Ok (None, g1))
    as (g1 & Hv) by (eexists; evaluate).
  exists g1. split; [exact Hv|].
  destruct (X3_filters_agree _ _ _ _ _ _ Hv) as [(_ & g2 & Hs & Hc)|(_ & Hs)].
  - exists g2. split; [exact Hs|]. rewrite Hc. evaluate.
  - exfalso. vm_compute in Hs. discriminate.
Defined.

(** A nil job is refused: the loop holds that error and keeps it when the
    worker's [ctx.Err()] comes in. *)
Lemma X4_witness :
  run Runs.windDown Runs.refused = Some Runs.woundDown
  /\ firstErrOf (collector Runs.refused) = Some "received invalid file data"
  /\ firstErrOf (collector Runs.woundDown)
     = Some "received invalid file data"
  /\ ctxDone Runs.woundDown = true.
Proof.
  assert (run Runs.windDown Runs.refused = Some Runs.woundDown) as Hrun
    by evaluate.
  assert (firstErrOf (collector Runs.refused)
          = Some "received invalid file data") as He by evaluate.
  assert (ctxDone Runs.refused = true) as Hc by evaluate.
  destruct (X4_first_error_wins _ _ _ Hrun) as (H1 & H2 & _).
  split; [exact Hrun|]. split; [exact He|].
  split; [exact (H1 _ He)|exact (H2 Hc)].
Defined.

(** On [/d], [a.txt] stays first in its group when [b.txt] is added. *)
Lemma X5_witness :
  let s1 := Mini.after Runs.flD "/d" Runs.firstFile in
  let s2 := Mini.after Runs.flD "/d" Runs.twoFiles in
  run (Mini.oneFile 0) s1 = Some s2
  /\ duplicates (globals s1) !!! "hello" = ["/d/a.txt"]
  /\ duplicates (globals s1) !!! "hello"
     `prefix_of` duplicates (globals s2) !!! "hello".
Proof.
  intros s1 s2.
  assert (run (Mini.oneFile 0) s1 = Some s2) as Hrun by evaluate.
  split; [exact Hrun|]. split; [evaluate|].
  exact (X5_index_only_grows _ _ _ "hello" Hrun).
Defined.

(** The race on [/one]: no error, though a file is lost. *)
Lemma X6_witness :
  let g := Mini.found Runs.flOne2 "/one" in
  let s := Mini.after Runs.flOne2 "/one" Mini.race in
  discovers Runs.flOne2 (Mini.tree "/one") g /\ reachable g s
  /\ firstErrOf (collector s) = None /\ panicked s = false.
Proof.
  intros g s.
  assert (discovers Runs.flOne2 (Mini.tree "/one") g) as Hd
    by (apply found_discovers; evaluate).
  assert (reachable g s) as Hr by (apply after_reachable; evaluate).
  split; [exact Hd|]. split; [exact Hr|].
  destruct (X6_pool_never_reports_an_error _ _ _ _ Hd Hr) as (H1 & _ & _ & H4).
  split; [exact H1|exact H4].
Defined.

(** On [/d] the sender starts with four files and room for six. *)
Lemma X7_witness :
  let g := Mini.found Runs.flD "/d" in
  let s := Mini.initial Runs.flD "/d" in
  let rest := [mkItem "/d/b.txt" (Mini.fileInfo "b.txt" 5);
               mkItem "/d/c.txt" (Mini.fileInfo "c.txt" 5);
               mkItem "/d/locked" (Mini.fileInfo "locked" 9)] in
  discovers Runs.flD (Mini.tree "/d") g
  /\ Z.of_nat (length (Mini.tree "/d")) < 2 ^ 63
  /\ reachable g s
  /\ dispatcher s = DRange (mkItem "/d/a.txt" (Mini.fileInfo "a.txt" 5) :: rest)
  /\ exists s', exec ADispatch s = Some s' /\ dispatcher s' = DRange rest.
Proof.
  intros g s rest.
  assert (discovers Runs.flD (Mini.tree "/d") g) as Hd
    by (apply found_discovers; evaluate).
  assert (Z.of_nat (length (Mini.tree "/d")) < 2 ^ 63) as Hlen by reflexivity.
  assert (reachable g s) as Hr.
  { exists s, []. split; evaluate. }
  assert (dispatcher s
          = DRange (mkItem "/d/a.txt" (Mini.fileInfo "a.txt" 5) :: rest))
    as Hdisp by evaluate.
  split; [exact Hd|]. split; [exact Hlen|]. split; [exact Hr|].
  split; [exact Hdisp|].
  eexists. split; [exact (X7_sender_never_waits _ _ _ _ _ _ Hd Hlen Hr Hdisp)|].
  reflexivity.
Defined.

(** On [/d] with one worker. *)
Lemma X8_witness :
  let g := Mini.found Runs.flD "/d" in
  discovers Runs.flD (Mini.tree "/d") g /\ numWorkers g = 1%nat
  /\ Z.of_nat (length (Mini.tree "/d")) < 2 ^ 63
  /\ exists s0 s,
       computeHashes_start g = Ok s0
       /\ run (Mini.inTurn (length (walkFiles g))) s0 = Some s
       /\ collector s = CReturned None /\ drained s.
Proof.
  intros g.
  assert (discovers Runs.flD (Mini.tree "/d") g) as Hd
    by (apply found_discovers; evaluate).
  assert (numWorkers g = 1%nat) as Hone by evaluate.
  assert (Z.of_nat (length (Mini.tree "/d")) < 2 ^ 63) as Hlen by reflexivity.
  split; [exact Hd|]. split; [exact Hone|]. split; [exact Hlen|].
  destruct (X8_one_worker_run_completes _ _ _ Hd Hone Hlen)
    as (s0 & s & H1 & H2 & H3 & _ & H5 & _).
  exists s0, s. split; [exact H1|]. split; [exact H2|].
  split; [exact H3|exact H5].
Defined.

(** The index of [/d] has one group of two paths and one of one path. *)
Lemma X9_witness :
  let g := globals (Mini.after Runs.flD "/d" (Mini.inTurn 4)) in
  wrap64 (dupCount g) = dupCount g
  /\ map_to_list (duplicates g) ≡ₚ map_to_list (duplicates g)
  /\ dupCount (countDuplicates g) = 1
  /\ countLoop (dupCount g) (map_to_list (duplicates g)) = 1.
Proof.
  intros g.
  assert (wrap64 (dupCount g) = dupCount g) as Hn by evaluate.
  assert (dupCount (countDuplicates g) = 1) as Hone by evaluate.
  split; [exact Hn|]. split; [reflexivity|]. split; [exact Hone|].
  destruct (X9_dupCount_counts_groups g _ Hn (reflexivity _)) as (Hloop & _).
  rewrite Hloop. exact Hone.
Defined.

(** On [/d] run to the end with [-delete]: [b.txt] alone is removed. *)
Lemma X11_witness :
  let g := Mini.found Runs.flD "/d" in
  let s := Mini.after Runs.flD "/d" (Mini.inTurn 4) in
  let groups := map_to_list (duplicates (globals s)) in
  discovers Runs.flD (Mini.tree "/d") g
  /\ NoDup (we_path <$> Mini.tree "/d") /\ reachable g s
  /\ groups ≡ₚ map_to_list (duplicates (globals s))
  /\ removed (reportGroups true (fun _ => false) groups) = ["/d/b.txt"]
  /\ NoDup (removed (reportGroups true (fun _ => false) groups)).
Proof.
  intros g s groups.
  assert (discovers Runs.flD (Mini.tree "/d") g) as Hd
    by (apply found_discovers; evaluate).
  assert (reachable g s) as Hr by (apply after_reachable; evaluate).
  assert (NoDup (we_path <$> Mini.tree "/d")) as Hnd.
  { refine (bool_decide_unpack _ _). vm_compute. exact I. }
  assert (removed (reportGroups true (fun _ => false) groups) = ["/d/b.txt"])
    as Hrem by evaluate.
  split; [exact Hd|]. split; [exact Hnd|]. split; [exact Hr|].
  split; [reflexivity|]. split; [exact Hrem|].
  exact (proj1 (X11_delete_never_removes_every_copy Runs.flD (Mini.tree "/d")
                  g s (fun _ => false) groups Hd Hnd Hr (reflexivity _))).
Defined.

(** On [/d] with two workers, the files taken two at a time. *)
Lemma X12_witness :
  let g := Mini.found Runs.flD2 "/d" in
  let s := Mini.after Runs.flD2 "/d" Runs.pairwise in
  discovers Runs.flD2 (Mini.tree "/d") g /\ reachable g s /\ drained s
  /\ length (workers s) = 2%nat
  /\ fileCount (globals s) = wrap64 (Z.of_nat (length (walkFiles g)))
  /\ (indexed (duplicates (globals s)) + scanErrors (logs (globals s)))%nat
     = length (walkFiles g).
Proof.
  intros g s.
  assert (discovers Runs.flD2 (Mini.tree "/d") g) as Hd
    by (apply found_discovers; evaluate).
  assert (reachable g s) as Hr by (apply after_reachable; evaluate).
  assert (drained s) as Hdr by (repeat split; evaluate).
  split; [exact Hd|]. split; [exact Hr|]. split; [exact Hdr|].
  split; [evaluate|].
  exact (proj2 (X12_drained_index_is_the_walk Runs.flD2 (Mini.tree "/d")
                  g s Hd Hr Hdr)).
Defined.

(** [/d] with one worker and with two: the group of [a.txt] and [b.txt]
    comes out in the two orders. *)
Lemma X13_witness :
  let g1 := Mini.found Runs.flD "/d" in
  let g2 := Mini.found Runs.flD2 "/d" in
  let s1 := Mini.after Runs.flD "/d" (Mini.inTurn 4) in
  let s2 := Mini.after Runs.flD2 "/d" Runs.pairwise in
  size_flag Runs.flD = size_flag Runs.flD2
  /\ name_flag Runs.flD = name_flag Runs.flD2
  /\ discovers Runs.flD (Mini.tree "/d") g1
  /\ discovers Runs.flD2 (Mini.tree "/d") g2
  /\ reachable g1 s1 /\ reachable g2 s2 /\ drained s1 /\ drained s2
  /\ duplicates (globals s1) !!! "hello" = ["/d/a.txt"; "/d/b.txt"]
  /\ duplicates (globals s2) !!! "hello" = ["/d/b.txt"; "/d/a.txt"]
  /\ (forall h, duplicates (globals s1) !!! h
                ≡ₚ duplicates (globals s2) !!! h).
Proof.
  intros g1 g2 s1 s2.
  assert (discovers Runs.flD (Mini.tree "/d") g1) as Hd1
    by (apply found_discovers; evaluate).
  assert (discovers Runs.flD2 (Mini.tree "/d") g2) as Hd2
    by (apply found_discovers; evaluate).
  assert (reachable g1 s1) as Hr1 by (apply after_reachable; evaluate).
  assert (reachable g2 s2) as Hr2 by (apply after_reachable; evaluate).
  assert (drained s1) as Hdr1 by (repeat split; evaluate).
  assert (drained s2) as Hdr2 by (repeat split; evaluate).
  split; [reflexivity|]. split; [reflexivity|].
  split; [exact Hd1|]. split; [exact Hd2|].
  split; [exact Hr1|]. split; [exact Hr2|].
  split; [exact Hdr1|]. split; [exact Hdr2|].
  split; [evaluate|]. split; [evaluate|].
  exact (proj1 (X13_drained_runs_agree Runs.flD Runs.flD2 (Mini.tree "/d")
                  g1 g2 s1 s2 eq_refl eq_refl Hd1 Hd2 Hr1 Hr2 Hdr1 Hdr2)).
Defined.

(** On [/d] with one worker, after the return. *)
Lemma X14_witness :
  let g := Mini.found Runs.flD "/d" in
  let s := Mini.after Runs.flD "/d" (Mini.inTurn 4) in
  discovers Runs.flD (Mini.tree "/d") g /\ numWorkers g = 1%nat
  /\ reachable g s /\ collector s = CReturned None
  /\ drained s /\ fileCount (globals s) = 4.
Proof.
  intros g s.
  assert (discovers Runs.flD (Mini.tree "/d") g) as Hd
    by (apply found_discovers; evaluate).
  assert (numWorkers g = 1%nat) as Hone by evaluate.
  assert (reachable g s) as Hr by (apply after_reachable; evaluate).
  assert (collector s = CReturned None) as Hc by evaluate.
  split; [exact Hd|]. split; [exact Hone|]. split; [exact Hr|].
  split; [exact Hc|].
  split; [|evaluate].
  exact (proj1 (X14_one_worker_waits_for_every_file Runs.flD (Mini.tree "/d")
                  g s None Hd Hone Hr Hc)).
Defined.

(** The whole program on [/d]: status 0. *)
Lemma X15_witness :
  main Runs.flD (Mini.inTurn 4) = Some Runs.ended
  /\ exitStatus Runs.ended = 0
  /\ (exitStatus Runs.ended = -1
      <-> h_flag Runs.flD = false /\ args Runs.flD = []).
Proof.
  assert (main Runs.flD (Mini.inTurn 4) = Some Runs.ended) as Hm by evaluate.
  split; [exact Hm|]. split; [evaluate|].
  exact (proj1 (proj2 (X15_exit_statuses Runs.flD (Mini.inTurn 4) Runs.ended
                         Hm))).
Defined.

(** The whole program on [/d] in single-thread mode. *)
Lemma X16_witness :
  let g := Mini.found Runs.flD "/d" in
  h_flag Runs.flD = false /\ args Runs.flD = ["/d"]
  /\ singleThread_flag Runs.flD = true
  /\ discovers Runs.flD (walkCalls "/d") g
  /\ Z.of_nat (length (walkCalls "/d")) < 2 ^ 63
  /\ exists g',
       main Runs.flD (Mini.inTurn (length (walkFiles g))) = Some (Exited 0 g')
       /\ fileCount g' = Z.of_nat (length (walkFiles g))
       /\ visitCount g' = Z.of_nat (length (walkCalls "/d")).
Proof.
  intros g.
  assert (discovers Runs.flD (walkCalls "/d") g) as Hd
    by (apply (found_discovers Runs.flD "/d"); evaluate).
  assert (Z.of_nat (length (walkCalls "/d")) < 2 ^ 63) as Hlen
    by reflexivity.
  split; [reflexivity|]. split; [reflexivity|]. split; [reflexivity|].
  split; [exact Hd|]. split; [exact Hlen|].
  destruct (X16_single_thread_run_exits_zero Runs.flD "/d" [] g
              eq_refl eq_refl eq_refl Hd Hlen) as (g' & Hm & _ & Hfc & Hvc).
  exists g'. split; [exact Hm|]. split; [exact Hfc|exact Hvc].
Defined.

(** The race on [/one]: two workers, one of them busy at the return. *)
Lemma X17_witness :
  let g := Mini.found Runs.flOne2 "/one" in
  let s := Mini.after Runs.flOne2 "/one" Mini.race in
  discovers Runs.flOne2 (Mini.tree "/one") g /\ reachable g s
  /\ collector s = CReturned None
  /\ length (inflight (workers s)) = 1%nat
  /\ numWorkers g = 2%nat
  /\ (2 * length (inflight (workers s)) <= numWorkers g)%nat.
Proof.
  intros g s.
  assert (discovers Runs.flOne2 (Mini.tree "/one") g) as Hd
    by (apply found_discovers; evaluate).
  assert (reachable g s) as Hr by (apply after_reachable; evaluate).
  assert (collector s = CReturned None) as Hc by evaluate.
  split; [exact Hd|]. split; [exact Hr|]. split; [exact Hc|].
  split; [evaluate|]. split; [evaluate|].
  exact (proj1 (proj2 (proj2 (proj2
    (X17_return_leaves_at_most_half_the_workers_busy Runs.flOne2
       (Mini.tree "/one") g s None Hd Hr Hc))))).
Defined.
